(** * image2excel: a shallow embedding of [image2excel.py] and its properties

    The script decodes an image, bounds it to [MAX_SIZE], writes every pixel
    as three vertically stacked cells of a write-only worksheet, attaches one
    colour-scale rule per worksheet row and saves the workbook.

    Python integers are [Z]; Python floats are IEEE 754 binary64 numbers,
    modelled by [spec_float] with the operations of [SpecFloat]; Python
    strings are [string]; exceptions are an explicit error result.  The
    OpenCV, pathlib and file-system collaborators are section variables. *)

From Stdlib Require Import ZArith List String Ascii Bool Lia.
From Stdlib Require Import QArith Qpower Qround Lqa.
From Stdlib Require Import SpecFloat DecimalString DecimalZ.
From Stdlib Require Import FunInd Recdef Sorted FinFun.
Import ListNotations.

Open Scope Z_scope.

(* ================================================================== *)
(** * Python scaffolding *)
(* ================================================================== *)

Module Py.

(** The exceptions the script can meet. [Exception] carries its message;
    [Cv2Error] is the [cv2.error] raised by OpenCV and [OSError] the failure
    of the final save. *)
Inductive exn : Type :=
| Exception (msg : string)
| ZeroDivisionError
| OverflowError
| ValueError
| Cv2Error
| OSError.

Inductive result (A : Type) : Type :=
| Ok (a : A)
| Raise (e : exn).
Arguments Ok {A} a.
Arguments Raise {A} e.

Definition bind {A B} (r : result A) (k : A -> result B) : result B :=
  match r with
  | Ok a => k a
  | Raise e => Raise e
  end.

(** [range(lo, hi)] as the list of its values. *)
Definition range (lo hi : Z) : list Z :=
  map (fun i => lo + Z.of_nat i) (seq 0 (Z.to_nat (hi - lo))).

(** [str(n)] for an integer, as used by an f-string. *)
Definition str (n : Z) : string := NilZero.string_of_int (Z.to_int n).

(** [s[i]] for an index [0 <= i < len(s)]; the script only indexes with
    [(n - 1) % 26] into a 26-letter string, which is always in range. *)
Definition index (s : string) (i : Z) : ascii :=
  match String.get (Z.to_nat i) s with
  | Some c => c
  | None => Ascii.zero
  end.

(** ** Floats: IEEE 754 binary64 *)

Definition prec : Z := 53.
Definition emax : Z := 1024.

Definition float : Type := spec_float.

(** [float(n)]: conversion with rounding to nearest even; exact whenever
    [|n| < 2^53], which covers every image dimension. *)
Definition float_of_int (n : Z) : float := binary_normalize prec emax n 0 false.

(** [a / b] on integers: true division. On operands below [2^53] in
    magnitude, as the dimensions of an array in memory are, both conversions
    are exact and the IEEE quotient is the correctly rounded quotient
    Python returns. *)
Definition truediv (a b : Z) : result float :=
  if b =? 0 then Raise ZeroDivisionError
  else Ok (SFdiv prec emax (float_of_int a) (float_of_int b)).

(** [n * x] for an integer [n] and a float [x]. *)
Definition mul_int_float (n : Z) (x : float) : float :=
  SFmul prec emax (float_of_int n) x.

(** [x < y] on floats. *)
Definition flt (x y : float) : bool := SFltb x y.

(** [int(x)]: truncation toward zero. *)
Definition int_of_float (x : float) : result Z :=
  match x with
  | S754_zero _ => Ok 0
  | S754_finite s m e =>
      Ok (cond_Zopp s (if 0 <=? e then Zpos m * 2 ^ e
                       else Zpos m / 2 ^ (- e)))
  | S754_infinity _ => Raise OverflowError
  | S754_nan => Raise ValueError
  end.

Definition one : float := float_of_int 1.

End Py.

Import Py.

Notation "x <- c1 ;; c2" := (bind c1 (fun x => c2))
  (at level 61, c1 at next level, right associativity).

(* ================================================================== *)
(** * Data model *)
(* ================================================================== *)

(** A decoded image: a numpy array of shape (height, width, channels) of
    intensities, read with [item r c ch]. *)
Record ndarray : Type := {
  shape : Z * Z * Z;
  item : Z -> Z -> Z -> Z
}.

Definition shape0 (img : ndarray) : Z := fst (fst (shape img)).
Definition shape1 (img : ndarray) : Z := snd (fst (shape img)).
Definition shape2 (img : ndarray) : Z := snd (shape img).

(** The slice [img[r, :, channel]]. *)
Definition row_channel (img : ndarray) (r channel : Z) : list Z :=
  map (fun c => item img r c channel) (range 0 (shape1 img)).

(** max image dimension (height, width) *)
Definition MAX_SIZE : Z * Z := (200, 477).

(* ================================================================== *)
(** * The scaler *)
(* ================================================================== *)

Section Scaler.

(** [cv2.resize(img, dsize)] with [dsize = (width, height)]; [None] when
    OpenCV refuses the call and raises [cv2.error]. *)
Variable cv2_resize : ndarray -> Z * Z -> option ndarray.

Definition resize (img : ndarray) (dsize : Z * Z) : result ndarray :=
  match cv2_resize img dsize with
  | Some out => Ok out
  | None => Raise Cv2Error
  end.

(** OpenCV's contract on shapes: a resized image has the requested
    (width, height). *)
Definition resize_contract : Prop :=
  forall img w h out,
    cv2_resize img (w, h) = Some out -> shape0 out = h /\ shape1 out = w.

Definition bound_image_to_size (img : ndarray) (size : Z * Z) : result ndarray :=
  (* Image fits *)
  if (shape0 img <=? fst size) && (shape1 img <=? snd size) then Ok img
  else
    lhs <- truediv (fst size) (Z.max (shape0 img) (fst size)) ;;
    rhs <- truediv (snd size) (Z.max (shape1 img) (snd size)) ;;
    (* Height is limiting *)
    if flt lhs rhs then
      scale <- truediv (fst size) (shape0 img) ;;
      w <- int_of_float (mul_int_float (shape1 img) scale) ;;
      (* resize takes (width, height) *)
      resize img (w, fst size)
    (* Width is limiting *)
    else
      scale <- truediv (snd size) (shape1 img) ;;
      h <- int_of_float (mul_int_float (shape0 img) scale) ;;
      resize img (snd size, h).

End Scaler.

(** A reference resizer meeting OpenCV's contract on shapes: an empty target
    size is refused, any other yields an image of exactly that size (sampled
    here by nearest neighbour). *)
Definition nearest_resize (img : ndarray) (dsize : Z * Z) : option ndarray :=
  let '(w, h) := dsize in
  if (w <=? 0) || (h <=? 0) then None
  else Some {| shape := (h, w, shape2 img);
             item := fun r c ch =>
               item img (r * shape0 img / h) (c * shape1 img / w) ch |}.

(** An image of the given shape with every intensity equal to [v]. *)
Definition solid (h w : Z) (v : Z) : ndarray :=
  {| shape := (h, w, 3); item := fun _ _ _ => v |}.

(** A small image whose intensities tell row, column and channel apart. *)
Definition sample_image : ndarray :=
  {| shape := (2, 2, 3); item := fun r c ch => 100 * r + 10 * c + ch |}.

Definition shape_of (r : result ndarray) : option (Z * Z * Z) :=
  match r with
  | Ok img => Some (shape img)
  | Raise _ => None
  end.

(* ================================================================== *)
(** * The column namer *)
(* ================================================================== *)

Definition ascii_uppercase : string := "ABCDEFGHIJKLMNOPQRSTUVWXYZ".

(** The [while n > 0] loop of [get_col_name], on the pair [(n, col)]. *)
Function get_col_name_loop (n : Z) (col : string) {measure Z.to_nat n} : string :=
  if 0 <? n then
    get_col_name_loop ((n - 1) / 26)
                      (String (index ascii_uppercase ((n - 1) mod 26)) col)
  else col.
Proof.
  intros n _ Hn. apply Z.ltb_lt in Hn.
  apply Z2Nat.inj_lt; try lia.
  - apply Z.div_pos; lia.
  - apply Z.div_lt_upper_bound; lia.
Defined.

Definition get_col_name (n : Z) : string := get_col_name_loop n "".

(** The generator [iter_col_names], as the list of the names it yields. *)
Definition iter_col_names (n_cols : Z) : list string :=
  map get_col_name (range 1 (n_cols + 1)).

(* ================================================================== *)
(** * The worksheet and its writers *)
(* ================================================================== *)

Record Font : Type := { font_name : string; font_size : Z }.

Record Alignment : Type := { vertical : string }.

Record Cell : Type := {
  value : Z;
  font : Font;
  alignment : Alignment
}.

Record ColorScaleRule : Type := {
  start_type : string;
  start_value : Z;
  start_color : string;
  end_type : string;
  end_value : Z;
  end_color : string
}.

(** A write-only worksheet: the dimension holders, the rows appended so far
    (oldest first) and the conditional-formatting rules added so far, each
    with the range string it was added under. *)
Record Worksheet : Type := {
  title : string;
  row_dimensions : Z -> option Z;
  column_dimensions : string -> option float;
  rows : list (list Cell);
  conditional_formatting : list (string * ColorScaleRule)
}.

Definition ROW_HEIGHT : Z := 5.
(** The literal [2.45]: the double nearest to 245/100. *)
Definition COL_WIDTH : float :=
  Eval vm_compute in SFdiv prec emax (float_of_int 245) (float_of_int 100).
Definition FONT_SIZE : Z := 2.

Definition create_sheet (name : string) : Worksheet :=
  {| title := name;
     row_dimensions := fun _ => None;
     column_dimensions := fun _ => None;
     rows := [];
     conditional_formatting := [] |}.

Definition set_row_height (i h : Z) (ws : Worksheet) : Worksheet :=
  {| title := title ws;
     row_dimensions := fun j => if j =? i then Some h else row_dimensions ws j;
     column_dimensions := column_dimensions ws;
     rows := rows ws;
     conditional_formatting := conditional_formatting ws |}.

Definition set_column_width (col : string) (w : float) (ws : Worksheet) : Worksheet :=
  {| title := title ws;
     row_dimensions := row_dimensions ws;
     column_dimensions :=
       fun c => if String.eqb c col then Some w else column_dimensions ws c;
     rows := rows ws;
     conditional_formatting := conditional_formatting ws |}.

(** [ws.append(row)] *)
Definition append (row : list Cell) (ws : Worksheet) : Worksheet :=
  {| title := title ws;
     row_dimensions := row_dimensions ws;
     column_dimensions := column_dimensions ws;
     rows := rows ws ++ [row];
     conditional_formatting := conditional_formatting ws |}.

(** [ws.conditional_formatting.add(range_string, rule)] *)
Definition add_rule (range_string : string) (rule : ColorScaleRule)
    (ws : Worksheet) : Worksheet :=
  {| title := title ws;
     row_dimensions := row_dimensions ws;
     column_dimensions := column_dimensions ws;
     rows := rows ws;
     conditional_formatting := conditional_formatting ws ++ [(range_string, rule)] |}.

(** A [for x in xs: body] loop over a state. *)
Definition for_each {S A : Type} (xs : list A) (body : A -> S -> S) (s : S) : S :=
  fold_left (fun acc x => body x acc) xs s.

(** Helper function to create a cell with desired formatting *)
Definition cell (val : Z) : Cell :=
  {| value := val;
     font := {| font_name := "Calibri"; font_size := FONT_SIZE |};
     alignment := {| vertical := "center" |} |}.

Definition write_img_to_ws (img : ndarray) (ws : Worksheet) : Worksheet :=
  (* Set all row heights *)
  let ws := for_each (range 1 (shape0 img * shape2 img + 1))
                     (fun i => set_row_height i ROW_HEIGHT) ws in
  (* Set all column widths *)
  let ws := for_each (iter_col_names (shape1 img))
                     (fun col => set_column_width col COL_WIDTH) ws in
  (* Add all numbers to the worksheet *)
  for_each (range 0 (shape0 img))
    (fun r => for_each (range 0 (shape2 img))
       (fun channel => append (map cell (row_channel img r channel))))
    ws.

(** [rgb[i]] on the three-element list of [apply_colors]. *)
Definition list_index (l : list string) (i : Z) : string :=
  nth (Z.to_nat i) l EmptyString.

Definition rgb : list string := ["0000FF"; "00FF00"; "FF0000"]%string.

Definition color_rule (r : Z) : ColorScaleRule :=
  {| start_type := "num"; start_value := 0; start_color := "000000";
     end_type := "num"; end_value := 255;
     end_color := list_index rgb ((r - 1) mod 3) |}.

Definition row_range (end_col : string) (r : Z) : string :=
  ("A" ++ str r ++ ":" ++ end_col ++ str r)%string.

Definition apply_colors (ws : Worksheet) (n_rows n_cols : Z) : Worksheet :=
  let end_col := get_col_name n_cols in
  for_each (range 1 (n_rows + 1))
    (fun r => add_rule (row_range end_col r) (color_rule r)) ws.

(* ================================================================== *)
(** * The program *)
(* ================================================================== *)

Record Workbook : Type := { sheets : list Worksheet }.

Section Main.

(** [cv2.imread]: [None] when the image cannot be decoded. *)
Variable cv2_imread : string -> option ndarray.
Variable cv2_resize : ndarray -> Z * Z -> option ndarray.
(** [Path(image).stem] *)
Variable path_stem : string -> string.
(** The file system, and [wb.save(output)] on it: the new file system,
    or [None] when the save fails. *)
Variable FileSystem : Type.
Variable wb_save : Workbook -> string -> FileSystem -> option FileSystem.

Definition load_failure (image : string) : exn :=
  Exception ("Failed to load image " ++ String "034" image
             ++ String "034" ".")%string.

Definition main (image : string) (output : option string)
    (fs : FileSystem) : result unit * FileSystem :=
  (* Load the image *)
  match cv2_imread image with
  | None => (Raise (load_failure image), fs)
  | Some img =>
      (* Resize the image so you can see it will fit on the screen *)
      match bound_image_to_size cv2_resize img MAX_SIZE with
      | Raise e => (Raise e, fs)
      | Ok img =>
          (* Create a new workbook *)
          let ws := create_sheet "Image" in
          (* Write the image data to the worksheet *)
          let ws := write_img_to_ws img ws in
          (* Apply conditional formatting for the RGB colors *)
          let ws := apply_colors ws (shape0 img * shape2 img) (shape1 img) in
          (* Name the output file after image if not specified *)
          let output :=
            match output with
            | None => (path_stem image ++ ".xlsx")%string
            | Some o => o
            end in
          (* Save the image *)
          match wb_save {| sheets := [ws] |} output fs with
          | Some fs' => (Ok tt, fs')
          | None => (Raise OSError, fs)
          end
      end
  end.

End Main.

(* ================================================================== *)
(** * Vocabulary of the column-name properties *)
(* ================================================================== *)

(** The digit a letter stands for in bijective base 26: A is 1, Z is 26. *)
Definition letter_value (c : ascii) : Z := Z.of_nat (nat_of_ascii c) - 64.

(** Decoding of a column name back to its number under bijective base 26,
    most significant letter first. *)
Fixpoint col_number_from (acc : Z) (s : string) : Z :=
  match s with
  | EmptyString => acc
  | String c s' => col_number_from (26 * acc + letter_value c) s'
  end.

Definition col_number (s : string) : Z := col_number_from 0 s.

(** Lexicographic order on strings, by character code. *)
Fixpoint lex_ltb (s t : string) : bool :=
  match s, t with
  | _, EmptyString => false
  | EmptyString, String _ _ => true
  | String a s', String b t' =>
      (nat_of_ascii a <? nat_of_ascii b)%nat || (Ascii.eqb a b && lex_ltb s' t')
  end.

(** Spreadsheet column order: shorter names first, names of one length in
    lexicographic order. *)
Definition col_ltb (s t : string) : bool :=
  (String.length s <? String.length t)%nat
  || ((String.length s =? String.length t)%nat && lex_ltb s t).

Definition col_lt (s t : string) : Prop := col_ltb s t = true.

(* ================================================================== *)
(** * Vocabulary of the float proofs *)
(* ================================================================== *)

(** Position of the rational [N / D] between the integers [N / D] and
    [N / D + 1], as [SpecFloat] records it. *)
Definition loc_of (N D : Z) : location :=
  if N mod D =? 0 then loc_Exact else loc_Inexact (2 * (N mod D) ?= D).

(** A shift record that stands for [N / D]: its mantissa is the integer
    quotient, its round and sticky bits give the position of the rest. *)
Definition shr_rep (N D : Z) (mrs : shr_record) : Prop :=
  0 < D /\ 0 <= N /\ shr_m mrs = N / D /\ loc_of_shr_record mrs = loc_of N D.

Definition pow2 (e : Z) : Q := (2 ^ e)%Q.

(** The rational value of a positive finite float with mantissa [m] and
    exponent [e]. *)
Definition Fval (m : positive) (e : Z) : Q := (inject_Z (Zpos m) * pow2 e)%Q.

(** Mantissas of normal binary64 numbers: exactly 53 bits. *)
Definition canon (m : positive) : Prop := 2 ^ 52 <= Zpos m < 2 ^ 53.

(** [m * 2^e] is a rounding to nearest of the positive rational [x]: it is
    [mr * 2^e0] where [2^e0] is the spacing of the floats around [x] and
    [mr] an integer within one half of [x / 2^e0]. *)
Definition rounds_to (x : Q) (m : positive) (e : Z) : Prop :=
  exists (e0 mr : Z),
    (Fval m e == inject_Z mr * pow2 e0)%Q /\
    2 ^ 52 <= mr <= 2 ^ 53 /\
    (inject_Z (2 ^ 52) * pow2 e0 <= x)%Q /\
    (x < inject_Z (2 ^ 53) * pow2 e0)%Q /\
    (inject_Z mr * pow2 e0 - x <= pow2 e0 * (1 # 2))%Q /\
    (x - inject_Z mr * pow2 e0 <= pow2 e0 * (1 # 2))%Q.

(** The value of any float; zero stands in for infinities and NaN. *)
Definition F2Q (f : float) : Q :=
  match f with
  | S754_finite s m e => (inject_Z (cond_Zopp s (Zpos m)) * pow2 e)%Q
  | _ => 0%Q
  end.

(* ================================================================== *)
(** * Vocabulary of the further properties *)
(* ================================================================== *)

(** OpenCV accepts every target size that is not empty. *)
Definition resize_accepts (cv2_resize : ndarray -> Z * Z -> option ndarray) : Prop :=
  forall img w h, 0 < w -> 0 < h -> cv2_resize img (w, h) <> None.

(** The letters of [string.ascii_uppercase], by character code. *)
Definition is_upper (c : ascii) : bool :=
  (65 <=? nat_of_ascii c)%nat && (nat_of_ascii c <=? 90)%nat.

Fixpoint all_upper (s : string) : bool :=
  match s with
  | EmptyString => true
  | String c s' => is_upper c && all_upper s'
  end.

(** The number of the last column whose name has [k] letters: 0, 26, 702,
    18278, ... *)
Fixpoint last_col (k : nat) : Z :=
  match k with
  | O => 0
  | S k' => 26 * (last_col k' + 1)
  end.

(** The 400x800 sample scaled to 200x400 by the reference resizer. *)
Definition scaled_sample : ndarray :=
  match nearest_resize (solid 400 800 7) (400, 200) with
  | Some out => out
  | None => solid 400 800 7
  end.

(* ================================================================== *)
(** * Rounding to nearest in [SpecFloat] *)
(* ================================================================== *)

(** [SpecFloat] rounds a positive rational [N / D * 2^ex] by shifting its
    integer quotient right until 53 bits remain, keeping a round and a
    sticky bit, and then rounding to nearest even.  The lemmas below follow
    that computation on integers, then state its outcome on rationals. *)

Ltac quotient_bounds :=
  split; [apply Z.div_pos; lia | apply Z.div_lt_upper_bound; lia].

Lemma loc_of_cases N D :
  0 < D ->
  let r := N mod D in
  (r = 0 /\ loc_of N D = loc_Exact) \/
  (0 < r /\ 2 * r < D /\ loc_of N D = loc_Inexact Lt) \/
  (0 < r /\ 2 * r = D /\ loc_of N D = loc_Inexact Eq) \/
  (0 < r /\ 2 * r > D /\ loc_of N D = loc_Inexact Gt).
Proof.
  intros HD r. unfold loc_of. fold r.
  assert (0 <= r < D) by (apply Z.mod_pos_bound; lia).
  destruct (Z.eqb_spec r 0) as [E|E]; [left; auto|right].
  destruct (Z.compare_spec (2 * r) D); [right; left | left | right; right];
    repeat split; auto; lia.
Qed.

Lemma divmod_double N D :
  0 < D -> 0 <= N ->
  N / (2 * D) = (N / D) / 2 /\ N mod (2 * D) = ((N / D) mod 2) * D + N mod D.
Proof.
  intros HD HN.
  pose proof (Z.div_mod N D ltac:(lia)) as E.
  pose proof (Z.mod_pos_bound N D HD) as B.
  pose proof (Z.div_mod (N / D) 2 ltac:(lia)) as E2.
  pose proof (Z.mod_pos_bound (N / D) 2 ltac:(lia)) as B2.
  assert (N = (2 * D) * (N / D / 2) + ((N / D) mod 2 * D + N mod D)) as E3 by nia.
  assert (0 <= (N / D) mod 2 * D + N mod D < 2 * D) as B3 by nia.
  split.
  - symmetry. eapply Z.div_unique_pos; eauto.
  - symmetry. eapply Z.mod_unique_pos; eauto.
Qed.

(** One shift to the right halves the quotient and doubles the divisor. *)
Lemma shr_1_rep N D mrs : shr_rep N D mrs -> shr_rep N (2 * D) (shr_1 mrs).
Proof.
  intros (HD & HN & Hm & Hl).
  destruct (divmod_double N D HD HN) as [Eq Er].
  pose proof (Z.mod_pos_bound N D HD) as B.
  assert (0 <= N / D) as Hq by (apply Z.div_pos; lia).
  destruct mrs as [m r s]; simpl in Hm, Hl.
  unfold shr_rep. split; [lia|]. split; [lia|].
  assert (loc_of N (2 * D) =
          loc_of_shr_record
            (Build_shr_record 0 (Z.odd (N / D)) (negb (N mod D =? 0)))) as Hloc.
  { unfold loc_of. rewrite Er.
    rewrite Zmod_odd. destruct (Z.odd (N / D)); simpl loc_of_shr_record.
    - destruct (Z.eqb_spec (N mod D) 0) as [E0|E0].
      + rewrite E0. destruct (Z.eqb_spec (1 * D + 0) 0); [lia|].
        simpl negb. cbv iota. f_equal. apply Z.compare_eq_iff. lia.
      + destruct (Z.eqb_spec (1 * D + N mod D) 0); [lia|].
        simpl negb. cbv iota. f_equal. apply Z.compare_gt_iff. lia.
    - destruct (Z.eqb_spec (N mod D) 0) as [E0|E0].
      + rewrite E0. reflexivity.
      + destruct (Z.eqb_spec (0 * D + N mod D) 0); [lia|].
        simpl negb. cbv iota. f_equal. apply Z.compare_lt_iff. lia. }
  assert (orb r s = negb (N mod D =? 0)) as Hs.
  { destruct (loc_of_cases N D HD) as [(E & L)|[(E & _ & L)|[(E & _ & L)|(E & _ & L)]]];
      rewrite L in Hl; destruct r, s; simpl in Hl; try discriminate;
      destruct (Z.eqb_spec (N mod D) 0); try lia; reflexivity. }
  rewrite Hloc, Eq, <- Hm.
  destruct m as [|[p|p|]|[p|p|]]; simpl; rewrite ?Hs; try lia; split; try reflexivity.
  - apply Z.div_unique with 1; lia.
  - apply Z.div_unique with 0; lia.
Qed.

Lemma iter_shr_1_rep p : forall N D mrs,
  shr_rep N D mrs -> shr_rep N (D * 2 ^ Zpos p) (iter_pos shr_1 p mrs).
Proof.
  induction p as [p IH|p IH|]; intros N D mrs H; simpl iter_pos.
  - apply shr_1_rep in H. apply IH in H. apply IH in H.
    replace (D * 2 ^ Z.pos p~1) with (2 * D * 2 ^ Z.pos p * 2 ^ Z.pos p); [exact H|].
    replace (Z.pos p~1) with (1 + Z.pos p + Z.pos p) by lia.
    rewrite !Z.pow_add_r by lia. rewrite Z.pow_1_r. ring.
  - apply IH in H. apply IH in H.
    replace (D * 2 ^ Z.pos p~0) with (D * 2 ^ Z.pos p * 2 ^ Z.pos p); [exact H|].
    replace (Z.pos p~0) with (Z.pos p + Z.pos p) by lia.
    rewrite !Z.pow_add_r by lia. ring.
  - apply shr_1_rep in H.
    replace (D * 2 ^ 1) with (2 * D) by (rewrite Z.pow_1_r; ring). exact H.
Qed.

Lemma loc_of_record_of_loc m l : loc_of_shr_record (shr_record_of_loc m l) = l.
Proof. destruct l as [|[| |]]; reflexivity. Qed.

Lemma shr_rep_shr N D m l e n :
  0 < D -> 0 <= N -> m = N / D -> l = loc_of N D ->
  let k := Z.max n 0 in
  shr_rep N (D * 2 ^ k) (fst (shr (shr_record_of_loc m l) e n)) /\
  snd (shr (shr_record_of_loc m l) e n) = e + k.
Proof.
  intros HD HN Hm Hl k.
  assert (H0 : shr_rep N D (shr_record_of_loc m l)).
  { unfold shr_rep. split; [lia|]. split; [lia|]. split.
    - subst; destruct (loc_of N D) as [|[| |]]; reflexivity.
    - rewrite loc_of_record_of_loc. auto. }
  destruct n as [|p|p]; simpl shr; unfold k; simpl fst; simpl snd.
  - rewrite Z.mul_1_r. split; [exact H0|lia].
  - rewrite Z.max_l by lia. split; [apply iter_shr_1_rep; exact H0|reflexivity].
  - rewrite Z.max_r by lia. rewrite Z.mul_1_r. split; [exact H0|lia].
Qed.

Lemma digits2_pos_bounds p :
  2 ^ (Zpos (digits2_pos p) - 1) <= Zpos p < 2 ^ Zpos (digits2_pos p).
Proof.
  induction p as [p IH|p IH|]; simpl digits2_pos.
  - rewrite Pos2Z.inj_succ.
    replace (Z.succ (Z.pos (digits2_pos p)) - 1)
      with (Z.succ (Z.pos (digits2_pos p) - 1)) by lia.
    rewrite !Z.pow_succ_r by lia. lia.
  - rewrite Pos2Z.inj_succ.
    replace (Z.succ (Z.pos (digits2_pos p)) - 1)
      with (Z.succ (Z.pos (digits2_pos p) - 1)) by lia.
    rewrite !Z.pow_succ_r by lia. lia.
  - simpl. lia.
Qed.

Lemma Zdigits2_bounds m : 0 < m -> 2 ^ (Zdigits2 m - 1) <= m < 2 ^ Zdigits2 m.
Proof. destruct m; try lia. intros _. apply digits2_pos_bounds. Qed.

Lemma Zdigits2_unique m k : 0 < m -> 2 ^ (k - 1) <= m < 2 ^ k -> Zdigits2 m = k.
Proof.
  intros Hm [Hl Hu]. pose proof (Zdigits2_bounds m Hm) as [Hl' Hu'].
  assert (Hd : 0 < Zdigits2 m) by (destruct m; simpl; lia).
  assert (Hk : 0 < k).
  { destruct (Z_lt_le_dec 0 k); auto.
    destruct (Z.eq_dec k 0) as [->|]; [simpl in Hu; lia|].
    rewrite Z.pow_neg_r in Hu by lia. lia. }
  destruct (Z.lt_trichotomy (Zdigits2 m) k) as [H|[H|H]]; auto.
  - assert (2 ^ Zdigits2 m <= 2 ^ (k - 1)) by (apply Z.pow_le_mono_r; lia). lia.
  - assert (2 ^ k <= 2 ^ (Zdigits2 m - 1)) by (apply Z.pow_le_mono_r; lia). lia.
Qed.

Lemma fexp_normal e : -1074 <= e - 53 -> fexp prec emax e = e - 53.
Proof. intros H. unfold fexp, emin, prec, emax. lia. Qed.

(** Rounding to nearest even picks an integer within one half of [N / D]. *)
Lemma round_nearest_even_near N D :
  0 < D -> 0 <= N ->
  let mr := round_nearest_even (N / D) (loc_of N D) in
  (mr = N / D \/ mr = N / D + 1) /\ 2 * Z.abs (mr * D - N) <= D.
Proof.
  intros HD HN mr.
  pose proof (Z.div_mod N D ltac:(lia)) as E.
  pose proof (Z.mod_pos_bound N D HD) as B.
  unfold mr.
  destruct (loc_of_cases N D HD)
    as [(R & L)|[(R & R' & L)|[(R & R' & L)|(R & R' & L)]]];
    rewrite L; simpl round_nearest_even.
  - split; [auto|nia].
  - split; [auto|nia].
  - destruct (Z.even (N / D)); split; auto; nia.
  - split; [auto|nia].
Qed.

(** The outcome of [binary_round_aux] in the normal range, on integers: a
    53-bit mantissa [m] and an exponent [e] with [m * 2^e = mr * 2^e0], where
    [mr] is a nearest integer to [N / D'] and [D' = D * 2^(d - 53)]. *)
Lemma binary_round_aux_spec sx N D ex :
  0 < D -> 0 <= N ->
  let d := Zdigits2 (N / D) in
  53 <= d -> -1074 <= d + ex - 53 -> d + ex - 53 < 971 ->
  let D' := D * 2 ^ (d - 53) in
  let e0 := ex + (d - 53) in
  exists (m : positive) (e mr : Z),
    binary_round_aux prec emax sx (N / D) ex (loc_of N D) = S754_finite sx m e /\
    2 ^ 52 <= Zpos m < 2 ^ 53 /\
    (e = e0 /\ Zpos m = mr \/ e = e0 + 1 /\ mr = 2 ^ 53 /\ Zpos m = 2 ^ 52) /\
    2 * Z.abs (mr * D' - N) <= D' /\
    2 ^ 52 * D' <= N < 2 ^ 53 * D'.
Proof.
  intros HD HN d Hd Hlo Hhi D' e0.
  assert (Hq : 0 < N / D).
  { assert (0 <= N / D) by (apply Z.div_pos; lia).
    destruct (Z.eq_dec (N / D) 0) as [E0|]; [|lia].
    unfold d in Hd. rewrite E0 in Hd. simpl in Hd. lia. }
  pose proof (Zdigits2_bounds (N / D) Hq) as [Bl Bu]. fold d in Bl, Bu.
  assert (HD' : 0 < D').
  { unfold D'. apply Z.mul_pos_pos; [lia|apply Z.pow_pos_nonneg; lia]. }
  assert (Hp : 2 ^ (d - 1) = 2 ^ 52 * 2 ^ (d - 53)).
  { rewrite <- Z.pow_add_r by lia. f_equal. lia. }
  assert (Hp' : 2 ^ d = 2 ^ 53 * 2 ^ (d - 53)).
  { rewrite <- Z.pow_add_r by lia. f_equal. lia. }
  pose proof (Z.div_mod N D ltac:(lia)) as E.
  pose proof (Z.mod_pos_bound N D HD) as B.
  assert (HN' : 2 ^ 52 * D' <= N < 2 ^ 53 * D').
  { unfold D'. split; nia. }
  assert (Hm' : 2 ^ 52 <= N / D' < 2 ^ 53).
  { split.
    - apply Z.div_le_lower_bound; lia.
    - apply Z.div_lt_upper_bound; lia. }
  unfold binary_round_aux, shr_fexp.
  fold d. rewrite (fexp_normal (d + ex)) by lia.
  destruct (shr_rep_shr N D (N / D) (loc_of N D) ex (d + ex - 53 - ex)
              HD HN eq_refl eq_refl) as [Hrep Hsnd].
  replace (Z.max (d + ex - 53 - ex) 0) with (d - 53) in Hrep, Hsnd by lia.
  fold D' in Hrep. fold e0 in Hsnd.
  destruct (shr (shr_record_of_loc (N / D) (loc_of N D)) ex (d + ex - 53 - ex))
    as [mrs' e'].
  simpl in Hrep, Hsnd. subst e'.
  destruct Hrep as (_ & _ & Hm & Hl).
  rewrite Hm, Hl.
  destruct (round_nearest_even_near N D' HD' HN) as [Hmr Hnear].
  set (mr := round_nearest_even (N / D') (loc_of N D')) in *.
  assert (Hmr' : 2 ^ 52 <= mr <= 2 ^ 53) by lia.
  destruct (Z_lt_le_dec mr (2 ^ 53)) as [Hlt|Hge].
  - assert (Hdg : Zdigits2 mr = 53).
    { apply Zdigits2_unique; [lia|]. replace (53 - 1) with 52 by lia. lia. }
    rewrite Hdg. rewrite (fexp_normal (53 + e0)) by (unfold e0; lia).
    replace (53 + e0 - 53 - e0) with 0 by lia.
    simpl shr.
    destruct mr as [|m|m] eqn:Emr; try lia.
    simpl shr_m.
    assert (Hle : (e0 <=? emax - prec) = true).
    { apply Z.leb_le. unfold emax, prec, e0. lia. }
    rewrite Hle.
    exists m, e0, (Zpos m).
    split; [reflexivity|]. split; [lia|]. split; [left; auto|].
    split; [exact Hnear|exact HN'].
  - assert (Emr : mr = 2 ^ 53) by lia.
    rewrite Emr.
    replace (Zdigits2 (2 ^ 53)) with 54 by reflexivity.
    rewrite (fexp_normal (54 + e0)) by (unfold e0; lia).
    replace (54 + e0 - 53 - e0) with 1 by lia.
    simpl shr. cbv beta iota. simpl shr_m. cbv beta iota.
    assert (Hle : (e0 + 1 <=? emax - prec) = true).
    { apply Z.leb_le. unfold emax, prec, e0. lia. }
    rewrite Hle.
    eexists _, (e0 + 1), mr. split; [reflexivity|].
    split; [simpl; lia|].
    split; [right; repeat split; lia|].
    split; [exact Hnear|exact HN'].
Qed.

Lemma pow2_pos e : (0 < pow2 e)%Q.
Proof. unfold pow2. apply Qpower_0_lt. reflexivity. Qed.

Lemma pow2_add a b : (pow2 (a + b) == pow2 a * pow2 b)%Q.
Proof. unfold pow2. apply Qpower_plus. intro H. discriminate H. Qed.

Lemma pow2_Z n : 0 <= n -> (pow2 n == inject_Z (2 ^ n))%Q.
Proof. intros H. unfold pow2. rewrite Zpower_Qpower by assumption. reflexivity. Qed.

Lemma pow2_le a b : a <= b -> (pow2 a <= pow2 b)%Q.
Proof. intros H. unfold pow2. apply Qpower_le_compat_l; [assumption|]. discriminate. Qed.

Lemma pow2_split a b : b <= a -> (pow2 a == inject_Z (2 ^ (a - b)) * pow2 b)%Q.
Proof.
  intros H. rewrite <- pow2_Z by lia. rewrite <- pow2_add.
  replace (a - b + b) with a by lia. reflexivity.
Qed.

Lemma inject_Z_le_half a b : (inject_Z a <= inject_Z b + (1 # 2))%Q -> a <= b.
Proof.
  intros H. destruct (Z_lt_le_dec b a) as [Hlt|]; [|assumption].
  exfalso. assert (Hq : (inject_Z (b + 1) <= inject_Z a)%Q) by (rewrite <- Zle_Qle; lia).
  rewrite inject_Z_plus in Hq. change (inject_Z 1) with 1%Q in Hq. lra.
Qed.

Lemma Fval_lt_pow m e : canon m -> (Fval m e < inject_Z (2 ^ 53) * pow2 e)%Q.
Proof.
  intros [_ H]. unfold Fval. pose proof (pow2_pos e).
  assert (inject_Z (Zpos m) < inject_Z (2 ^ 53))%Q by (rewrite <- Zlt_Qlt; assumption).
  nra.
Qed.

Lemma Fval_ge_pow m e : canon m -> (inject_Z (2 ^ 52) * pow2 e <= Fval m e)%Q.
Proof.
  intros [H _]. unfold Fval. pose proof (pow2_pos e).
  assert (inject_Z (2 ^ 52) <= inject_Z (Zpos m))%Q by (rewrite <- Zle_Qle; assumption).
  nra.
Qed.

Lemma pow2_step e e' :
  e' < e -> (inject_Z (2 ^ 53) * pow2 e' <= inject_Z (2 ^ 52) * pow2 e)%Q.
Proof.
  intros H. rewrite (pow2_split e e') by lia.
  assert (H1 : 2 <= 2 ^ (e - e')).
  { change 2 with (2 ^ 1) at 1. apply Z.pow_le_mono_r; lia. }
  assert (H2 : (inject_Z 2 <= inject_Z (2 ^ (e - e')))%Q)
    by (rewrite <- Zle_Qle; assumption).
  pose proof (pow2_pos e').
  change (inject_Z (2 ^ 53)) with (inject_Z (2 ^ 52) * inject_Z 2)%Q.
  change (inject_Z 2) with 2%Q in *.
  change (inject_Z (2 ^ 52)) with (4503599627370496 # 1)%Q.
  nra.
Qed.

(** A rounded value never crosses a representable one. *)
Lemma rounds_to_le_upper x m e m' e' :
  rounds_to x m e -> canon m' -> (x <= Fval m' e')%Q -> (Fval m e <= Fval m' e')%Q.
Proof.
  intros (e0 & mr & Hv & Hmr & Hlo & Hhi & Hup & Hdn) Hc Hx.
  rewrite Hv. pose proof (pow2_pos e0) as Hp.
  destruct (Z_lt_le_dec e' e0) as [Hlt|Hge].
  - exfalso. pose proof (Fval_lt_pow m' e' Hc). pose proof (pow2_step e0 e' Hlt). lra.
  - unfold Fval in *. rewrite (pow2_split e' e0 Hge) in *.
    set (k := Zpos m' * 2 ^ (e' - e0)).
    assert (Hk : (inject_Z (Zpos m') * (inject_Z (2 ^ (e' - e0)) * pow2 e0)
                  == inject_Z k * pow2 e0)%Q).
    { unfold k. rewrite inject_Z_mult. ring. }
    rewrite Hk in *.
    assert (Hz : mr <= k).
    { apply inject_Z_le_half. nra. }
    rewrite Zle_Qle in Hz. nra.
Qed.

(** ... from either side. *)
Lemma rounds_to_ge_lower x m e m' e' :
  rounds_to x m e -> canon m' -> (Fval m' e' <= x)%Q -> (Fval m' e' <= Fval m e)%Q.
Proof.
  intros (e0 & mr & Hv & Hmr & Hlo & Hhi & Hup & Hdn) Hc Hx.
  rewrite Hv. pose proof (pow2_pos e0) as Hp.
  destruct (Z_lt_le_dec e' e0) as [Hlt|Hge].
  - pose proof (Fval_lt_pow m' e' Hc). pose proof (pow2_step e0 e' Hlt).
    assert (inject_Z (2 ^ 52) <= inject_Z mr)%Q by (rewrite <- Zle_Qle; lia).
    nra.
  - unfold Fval in *. rewrite (pow2_split e' e0 Hge) in *.
    set (k := Zpos m' * 2 ^ (e' - e0)).
    assert (Hk : (inject_Z (Zpos m') * (inject_Z (2 ^ (e' - e0)) * pow2 e0)
                  == inject_Z k * pow2 e0)%Q).
    { unfold k. rewrite inject_Z_mult. ring. }
    rewrite Hk in *.
    assert (Hz : k <= mr).
    { apply inject_Z_le_half. nra. }
    rewrite Zle_Qle in Hz. nra.
Qed.

(** Relative error of rounding to nearest: at most 2^-53. *)
Lemma rounds_to_rel x m e :
  rounds_to x m e -> (Fval m e <= x + x * pow2 (-53))%Q.
Proof.
  intros (e0 & mr & Hv & Hmr & Hlo & Hhi & Hup & Hdn).
  rewrite Hv. pose proof (pow2_pos e0) as Hp.
  assert (E : (pow2 (-53) == 1 # 9007199254740992)%Q) by reflexivity.
  rewrite E. change (inject_Z (2 ^ 52)) with (4503599627370496 # 1)%Q in Hlo.
  lra.
Qed.

Lemma Qscale_le (L R d : Q) : (0 < d -> L * d <= R * d -> L <= R)%Q.
Proof. intros Hd H. apply (Qmult_le_r _ _ d Hd). exact H. Qed.

Lemma Qscale_lt (L R d : Q) : (0 < d -> L * d < R * d -> L < R)%Q.
Proof. intros Hd H. apply (Qmult_lt_r _ _ d Hd). exact H. Qed.

(** The outcome of [binary_round_aux] on rationals. *)
Lemma binary_round_aux_rounds N D ex x :
  0 < D -> 0 <= N ->
  let d := Zdigits2 (N / D) in
  53 <= d -> -1074 <= d + ex - 53 -> d + ex - 53 < 971 ->
  (x * inject_Z D == inject_Z N * pow2 ex)%Q ->
  exists m e,
    binary_round_aux prec emax false (N / D) ex (loc_of N D) = S754_finite false m e /\
    canon m /\ d + ex - 53 <= e <= d + ex - 52 /\ rounds_to x m e.
Proof.
  intros HD HN d Hd Hlo Hhi Hx.
  destruct (binary_round_aux_spec false N D ex HD HN Hd Hlo Hhi)
    as (m & e & mr & Hr & Hc & Hcase & Hnear & Hrange).
  fold d in Hcase, Hnear, Hrange.
  set (D' := D * 2 ^ (d - 53)) in *. set (e0 := ex + (d - 53)) in *.
  exists m, e. split; [exact Hr|]. split; [exact Hc|]. split; [lia|].
  assert (HT : 0 < 2 ^ (d - 53)) by (apply Z.pow_pos_nonneg; lia).
  assert (HD' : 0 < D') by (unfold D'; nia).
  assert (HDq : (0 < inject_Z D')%Q).
  { change 0%Q with (inject_Z 0). rewrite <- Zlt_Qlt. exact HD'. }
  pose proof (pow2_pos e0) as Hp0.
  assert (Hx' : (x * inject_Z D' == inject_Z N * pow2 e0)%Q).
  { unfold D', e0. rewrite inject_Z_mult, pow2_add, (pow2_Z (d - 53)) by lia.
    rewrite Qmult_assoc, Hx. ring. }
  exists e0, mr. 
  assert (Hmrb : 2 ^ 52 <= mr <= 2 ^ 53) by (unfold canon in Hc; lia).
  assert (Hv : (Fval m e == inject_Z mr * pow2 e0)%Q).
  { unfold Fval. destruct Hcase as [[-> ->]|(-> & -> & ->)]; [reflexivity|].
    rewrite pow2_add. change (pow2 1) with 2%Q.
    change (inject_Z (2 ^ 53)) with (inject_Z (2 ^ 52) * 2)%Q. ring. }
  split; [exact Hv|]. split; [exact Hmrb|].
  destruct Hrange as [Hr1 Hr2].
  rewrite Zle_Qle, inject_Z_mult in Hr1. rewrite Zlt_Qlt, inject_Z_mult in Hr2.
  assert (Hn1 : 2 * (mr * D') <= D' + 2 * N) by lia.
  assert (Hn2 : 2 * N <= D' + 2 * (mr * D')) by lia.
  rewrite Zle_Qle, inject_Z_plus, !inject_Z_mult in Hn1.
  rewrite Zle_Qle, inject_Z_plus, !inject_Z_mult in Hn2.
  change (inject_Z 2) with 2%Q in Hn1, Hn2.
  revert Hr1 Hr2 Hn1 Hn2 Hx' HDq Hp0.
  generalize (inject_Z (2 ^ 52)) (inject_Z (2 ^ 53)) (inject_Z mr)
             (inject_Z D') (inject_Z N) (pow2 e0).
  intros c52 c53 mq dq nq p0 Hr1 Hr2 Hn1 Hn2 Hx' HDq Hp0.
  repeat split.
  - apply (Qscale_le _ _ dq HDq). rewrite Hx'. nra.
  - apply (Qscale_lt _ _ dq HDq). rewrite Hx'. nra.
  - apply (Qscale_le _ _ dq HDq).
    setoid_replace ((mq * p0 - x) * dq)%Q with (mq * p0 * dq - x * dq)%Q by ring.
    rewrite Hx'. nra.
  - apply (Qscale_le _ _ dq HDq).
    setoid_replace ((x - mq * p0) * dq)%Q with (x * dq - mq * p0 * dq)%Q by ring.
    rewrite Hx'. nra.
Qed.

Lemma canon_digits m : canon m -> Zdigits2 (Zpos m) = 53.
Proof. intros H. apply Zdigits2_unique; [lia|]. exact H. Qed.

Lemma pos_iter_xO p k : Zpos (Pos.iter xO p k) = Zpos p * 2 ^ Zpos k.
Proof.
  induction k as [|k IH] using Pos.peano_ind.
  - simpl. lia.
  - rewrite Pos.iter_succ, Pos2Z.inj_xO, IH, Pos2Z.inj_succ, Z.pow_succ_r by lia. ring.
Qed.

Lemma loc_of_one N : loc_of N 1 = loc_Exact.
Proof. unfold loc_of. rewrite Z.mod_1_r. reflexivity. Qed.

Lemma new_location_loc_of N D : 0 < D -> new_location D (N mod D) = loc_of N D.
Proof.
  intros HD. unfold new_location, loc_of, new_location_even, new_location_odd.
  pose proof (Z.mod_pos_bound N D HD) as B.
  destruct (Z.even D) eqn:Ev; [reflexivity|].
  destruct (Z.eqb_spec (N mod D) 0); [reflexivity|].
  f_equal.
  assert (Hodd : Z.odd D = true) by (rewrite <- Z.negb_even, Ev; reflexivity).
  apply Z.odd_spec in Hodd. destruct Hodd as [k Hk].
  destruct (Z.compare_spec (2 * (N mod D) + 1) D);
    destruct (Z.compare_spec (2 * (N mod D)) D); try reflexivity; lia.
Qed.

Lemma rounds_to_exact x m e m' e' :
  rounds_to x m e -> canon m' -> (x == Fval m' e')%Q -> (Fval m e == x)%Q.
Proof.
  intros Hr Hc Hx.
  pose proof (rounds_to_le_upper x m e m' e' Hr Hc ltac:(lra)).
  pose proof (rounds_to_ge_lower x m e m' e' Hr Hc ltac:(lra)).
  lra.
Qed.

Lemma float_of_int_spec n :
  0 < n < 2 ^ 53 ->
  exists m e,
    float_of_int n = S754_finite false m e /\ canon m /\ -52 <= e <= 1 /\
    (Fval m e == inject_Z n)%Q.
Proof.
  intros Hn. destruct n as [|p|p]; try lia.
  unfold float_of_int, binary_normalize, binary_round.
  pose proof (digits2_pos_bounds p) as Hb.
  set (d := Zpos (digits2_pos p)) in *.
  assert (Hd : 1 <= d <= 53).
  { split; [unfold d; lia|].
    destruct (Z_lt_le_dec 53 d) as [H|H]; [|exact H].
    assert (2 ^ 53 <= 2 ^ (d - 1)) by (apply Z.pow_le_mono_r; lia). lia. }
  rewrite Z.add_0_r. rewrite (fexp_normal d) by lia.
  assert (Hsh : exists mz, shl_align p 0 (d - 53) = (mz, d - 53) /\
                           Zpos mz = Zpos p * 2 ^ (53 - d)).
  { unfold shl_align. rewrite Z.sub_0_r.
    destruct (d - 53) as [|k|k] eqn:E; try lia.
    - exists p. split; [reflexivity|]. replace (53 - d) with 0 by lia. simpl. lia.
    - eexists. split; [reflexivity|]. rewrite pos_iter_xO. f_equal. f_equal. lia. }
  destruct Hsh as (mz & -> & Hmz).
  assert (Hcz : canon mz).
  { unfold canon. rewrite Hmz.
    assert (E1 : 2 ^ 52 = 2 ^ (d - 1) * 2 ^ (53 - d)).
    { rewrite <- Z.pow_add_r by lia. f_equal. lia. }
    assert (E2 : 2 ^ 53 = 2 ^ d * 2 ^ (53 - d)).
    { rewrite <- Z.pow_add_r by lia. f_equal. lia. }
    assert (0 < 2 ^ (53 - d)) by (apply Z.pow_pos_nonneg; lia).
    rewrite E1, E2. nia. }
  assert (Hval : (inject_Z (Zpos p) == Fval mz (d - 53))%Q).
  { unfold Fval. rewrite Hmz, inject_Z_mult, <- (pow2_Z (53 - d)) by lia.
    rewrite <- Qmult_assoc, <- pow2_add. replace (53 - d + (d - 53)) with 0 by lia.
    change (pow2 0) with 1%Q. ring. }
  pose proof (binary_round_aux_rounds (Zpos mz) 1 (d - 53) (inject_Z (Zpos p))) as H.
  rewrite Z.div_1_r, loc_of_one, (canon_digits mz Hcz) in H.
  destruct H as (m & e & Hr & Hc & He & Hrt); try lia.
  { rewrite Hval. unfold Fval. change (inject_Z 1) with 1%Q. ring. }
  exists m, e. split; [exact Hr|]. split; [exact Hc|]. split; [lia|].
  apply (rounds_to_exact _ m e mz (d - 53) Hrt Hcz Hval).
Qed.

Lemma SFdiv_spec m1 e1 m2 e2 :
  canon m1 -> canon m2 -> -500 <= e1 <= 500 -> -500 <= e2 <= 500 ->
  exists m e,
    SFdiv prec emax (S754_finite false m1 e1) (S754_finite false m2 e2)
      = S754_finite false m e /\
    canon m /\ e1 - e2 - 53 <= e <= e1 - e2 - 51 /\
    forall x, (x * Fval m2 e2 == Fval m1 e1)%Q -> rounds_to x m e.
Proof.
  intros Hc1 Hc2 He1 He2.
  unfold SFdiv, SFdiv_core_binary.
  rewrite (canon_digits m1 Hc1), (canon_digits m2 Hc2).
  rewrite (fexp_normal (53 + e1 - (53 + e2))) by lia.
  replace (Z.min (53 + e1 - (53 + e2) - 53) (e1 - e2)) with (e1 - e2 - 53) by lia.
  replace (e1 - e2 - (e1 - e2 - 53)) with 53 by lia.
  cbv beta iota zeta.
  change (match 53 with 0 => Zpos m1 | Zpos _ => Z.shiftl (Zpos m1) 53 | Zneg _ => 0 end)
    with (Z.shiftl (Zpos m1) 53).
  rewrite Z.shiftl_mul_pow2 by lia.
  set (N := Zpos m1 * 2 ^ 53).
  assert (Hde : Z.div_eucl N (Zpos m2) = (N / Zpos m2, N mod Zpos m2)).
  { unfold Z.div, Z.modulo. destruct (Z.div_eucl N (Zpos m2)); reflexivity. }
  rewrite Hde. rewrite new_location_loc_of by lia. simpl xorb.
  assert (HN : 0 <= N) by (unfold N; lia).
  unfold canon in Hc1, Hc2.
  assert (Hq : 2 ^ 52 <= N / Zpos m2 < 2 ^ 54).
  { split.
    - apply Z.div_le_lower_bound; [lia|]. unfold N. nia.
    - apply Z.div_lt_upper_bound; [lia|]. unfold N.
      change (2 ^ 54) with (2 * 2 ^ 53). change (2 ^ 52) with 4503599627370496 in *.
      change (2 ^ 53) with 9007199254740992 in *. nia. }
  pose proof (Zdigits2_bounds (N / Zpos m2) ltac:(lia)) as [Bl Bu].
  set (d := Zdigits2 (N / Zpos m2)) in *.
  assert (Hd : 53 <= d <= 54).
  { split.
    - destruct (Z_lt_le_dec d 53) as [H|H]; [|exact H].
      assert (2 ^ d <= 2 ^ 52) by (apply Z.pow_le_mono_r; lia). lia.
    - destruct (Z_lt_le_dec 54 d) as [H|H]; [|exact H].
      assert (2 ^ 54 <= 2 ^ (d - 1)) by (apply Z.pow_le_mono_r; lia). lia. }
  assert (Hgen : forall x, (x * Fval m2 e2 == Fval m1 e1)%Q ->
                 (x * inject_Z (Zpos m2) == inject_Z N * pow2 (e1 - e2 - 53))%Q).
  { intros x Hx. unfold Fval in Hx. unfold N.
    rewrite inject_Z_mult, <- (pow2_Z 53) by lia.
    rewrite <- Qmult_assoc, <- pow2_add.
    replace (53 + (e1 - e2 - 53)) with (e1 - e2) by lia.
    pose proof (pow2_pos e2) as Hp2.
    apply (Qmult_inj_r _ _ (pow2 e2)); [lra|].
    rewrite <- !Qmult_assoc, <- pow2_add. replace (e1 - e2 + e2) with e1 by lia.
    rewrite <- Hx. ring. }
  set (x0 := (Fval m1 e1 / Fval m2 e2)%Q).
  assert (Hx0 : (x0 * Fval m2 e2 == Fval m1 e1)%Q).
  { unfold x0. field. pose proof (Fval_ge_pow m2 e2 Hc2). pose proof (pow2_pos e2).
    change (inject_Z (2 ^ 52)) with (4503599627370496 # 1)%Q in *. nra. }
  destruct (binary_round_aux_rounds N (Zpos m2) (e1 - e2 - 53) x0 ltac:(lia) HN)
    as (m & e & Hr & Hc & He & Hrt); fold d; try lia.
  { apply Hgen. exact Hx0. }
  exists m, e. split; [exact Hr|]. split; [exact Hc|]. split; [fold d in He; lia|].
  intros x Hx.
  assert (Exx : (x == x0)%Q).
  { apply (Qmult_inj_r _ _ (Fval m2 e2)).
    - pose proof (Fval_ge_pow m2 e2 Hc2). pose proof (pow2_pos e2).
      change (inject_Z (2 ^ 52)) with (4503599627370496 # 1)%Q in *. nra.
    - rewrite Hx, Hx0. reflexivity. }
  destruct Hrt as (e0 & mr & H1 & H2 & H3 & H4 & H5 & H6).
  exists e0, mr. rewrite Exx. repeat split; try assumption; lia.
Qed.

Lemma SFmul_spec m1 e1 m2 e2 :
  canon m1 -> canon m2 -> -500 <= e1 <= 400 -> -500 <= e2 <= 400 ->
  exists m e,
    SFmul prec emax (S754_finite false m1 e1) (S754_finite false m2 e2)
      = S754_finite false m e /\
    canon m /\ e1 + e2 + 52 <= e <= e1 + e2 + 54 /\
    rounds_to (Fval m1 e1 * Fval m2 e2)%Q m e.
Proof.
  intros Hc1 Hc2 He1 He2.
  unfold SFmul. simpl xorb.
  set (N := Zpos (m1 * m2)).
  assert (EN : N = Zpos m1 * Zpos m2) by (unfold N; lia).
  unfold canon in Hc1, Hc2.
  assert (Hq : 2 ^ 104 <= N < 2 ^ 106).
  { rewrite EN. change (2 ^ 104) with (2 ^ 52 * 2 ^ 52).
    change (2 ^ 106) with (2 ^ 53 * 2 ^ 53).
    split; nia. }
  pose proof (Zdigits2_bounds N ltac:(lia)) as [Bl Bu].
  pose proof (binary_round_aux_rounds N 1 (e1 + e2) (Fval m1 e1 * Fval m2 e2)%Q) as H.
  rewrite Z.div_1_r, loc_of_one in H.
  set (d := Zdigits2 N) in *.
  assert (Hd : 105 <= d <= 106).
  { split.
    - destruct (Z_lt_le_dec d 105) as [H'|H']; [|exact H'].
      assert (2 ^ d <= 2 ^ 104) by (apply Z.pow_le_mono_r; lia). lia.
    - destruct (Z_lt_le_dec 106 d) as [H'|H']; [|exact H'].
      assert (2 ^ 106 <= 2 ^ (d - 1)) by (apply Z.pow_le_mono_r; lia). lia. }
  destruct H as (m & e & Hr & Hc & He & Hrt); try lia.
  { unfold Fval. rewrite EN, inject_Z_mult, pow2_add. change (inject_Z 1) with 1%Q. ring. }
  exists m, e. split; [exact Hr|]. split; [exact Hc|]. split; [lia|exact Hrt].
Qed.

Lemma Fval_exp_lt m1 e1 m2 e2 :
  canon m1 -> canon m2 -> e1 < e2 -> (Fval m1 e1 < Fval m2 e2)%Q.
Proof.
  intros H1 H2 He.
  pose proof (Fval_lt_pow m1 e1 H1). pose proof (Fval_ge_pow m2 e2 H2).
  pose proof (pow2_step e2 e1 He). lra.
Qed.

Lemma SFltb_true m1 e1 m2 e2 :
  canon m1 -> canon m2 ->
  SFltb (S754_finite false m1 e1) (S754_finite false m2 e2) = true ->
  (Fval m1 e1 < Fval m2 e2)%Q.
Proof.
  intros H1 H2. unfold SFltb, SFcompare.
  destruct (Z.compare_spec e1 e2) as [E|E|E]; try discriminate.
  - subst e2. change (Pos.compare_cont Eq m1 m2) with (Pos.compare m1 m2).
    destruct (Pos.compare_spec m1 m2) as [E|E|E]; try discriminate. intros _.
    unfold Fval. pose proof (pow2_pos e1).
    assert (inject_Z (Zpos m1) < inject_Z (Zpos m2))%Q by (rewrite <- Zlt_Qlt; lia).
    nra.
  - intros _. apply Fval_exp_lt; assumption.
Qed.

Lemma SFltb_false m1 e1 m2 e2 :
  canon m1 -> canon m2 ->
  SFltb (S754_finite false m1 e1) (S754_finite false m2 e2) = false ->
  (Fval m2 e2 <= Fval m1 e1)%Q.
Proof.
  intros H1 H2. unfold SFltb, SFcompare.
  destruct (Z.compare_spec e1 e2) as [E|E|E]; try discriminate.
  - subst e2. change (Pos.compare_cont Eq m1 m2) with (Pos.compare m1 m2).
    destruct (Pos.compare_spec m1 m2) as [E|E|E]; try discriminate; intros _.
    + subst. lra.
    + unfold Fval. pose proof (pow2_pos e1).
      assert (inject_Z (Zpos m2) < inject_Z (Zpos m1))%Q by (rewrite <- Zlt_Qlt; lia).
      nra.
  - intros _. apply Qlt_le_weak. apply Fval_exp_lt; assumption.
Qed.

Lemma int_of_float_le m e z :
  (Fval m e < inject_Z (z + 1))%Q ->
  exists t, int_of_float (S754_finite false m e) = Ok t /\ 0 <= t <= z.
Proof.
  intros H. unfold Fval in H.
  exists (if 0 <=? e then Zpos m * 2 ^ e else Zpos m / 2 ^ (- e)).
  split; [reflexivity|].
  destruct (Z.leb_spec 0 e) as [He|He].
  - rewrite pow2_Z, <- inject_Z_mult, <- Zlt_Qlt in H by lia.
    assert (0 <= 2 ^ e) by (apply Z.pow_nonneg; lia).
    split; [apply Z.mul_nonneg_nonneg; lia|lia].
  - assert (Hp : 0 < 2 ^ (- e)) by (apply Z.pow_pos_nonneg; lia).
    assert (Hq : (inject_Z (2 ^ (- e)) * pow2 e == 1)%Q).
    { rewrite <- pow2_Z, <- pow2_add by lia. replace (- e + e) with 0 by lia. reflexivity. }
    assert (Hz : Zpos m < (z + 1) * 2 ^ (- e)).
    { rewrite Zlt_Qlt, inject_Z_mult.
      assert (0 < inject_Z (2 ^ (- e)))%Q
        by (change 0%Q with (inject_Z 0); rewrite <- Zlt_Qlt; lia).
      pose proof (pow2_pos e).
      revert H Hq H0 H1.
      generalize (inject_Z (Zpos m)) (inject_Z (z + 1))
                 (inject_Z (2 ^ (- e))) (pow2 e).
      intros a b t p H Hq Ht Hpp.
      setoid_replace a with (a * (t * p))%Q by (rewrite Hq; ring).
      setoid_replace (a * (t * p))%Q with ((a * p) * t)%Q by ring.
      nra. }
    assert (Zpos m / 2 ^ (- e) < z + 1) by (apply Z.div_lt_upper_bound; lia).
    assert (0 <= Zpos m / 2 ^ (- e)) by (apply Z.div_pos; lia).
    lia.
Qed.

(* ================================================================== *)
(** * The floats met by the scaler *)
(* ================================================================== *)

Lemma inject_Z_pos n : 0 < n -> (0 < inject_Z n)%Q.
Proof. intros H. change 0%Q with (inject_Z 0). rewrite <- Zlt_Qlt. exact H. Qed.

Lemma truediv_spec a b :
  0 < a < 2 ^ 53 -> 0 < b < 2 ^ 53 ->
  exists m e,
    truediv a b = Ok (S754_finite false m e) /\ canon m /\ -200 <= e <= 200 /\
    forall x, (x * inject_Z b == inject_Z a)%Q -> rounds_to x m e.
Proof.
  intros Ha Hb. unfold truediv.
  destruct (Z.eqb_spec b 0) as [E|_]; [lia|].
  destruct (float_of_int_spec a Ha) as (ma & ea & -> & Hca & Hea & Hva).
  destruct (float_of_int_spec b Hb) as (mb & eb & -> & Hcb & Heb & Hvb).
  destruct (SFdiv_spec ma ea mb eb Hca Hcb ltac:(lia) ltac:(lia))
    as (m & e & -> & Hc & He & Hr).
  exists m, e. split; [reflexivity|]. split; [exact Hc|]. split; [lia|].
  intros x Hx. apply Hr. rewrite Hva, Hvb. exact Hx.
Qed.

Lemma mul_int_float_spec n m e :
  0 < n < 2 ^ 53 -> canon m -> -200 <= e <= 200 ->
  exists m' e',
    mul_int_float n (S754_finite false m e) = S754_finite false m' e' /\
    canon m' /\ rounds_to (inject_Z n * Fval m e)%Q m' e'.
Proof.
  intros Hn Hc He. unfold mul_int_float.
  destruct (float_of_int_spec n Hn) as (mn & en & -> & Hcn & Hen & Hvn).
  destruct (SFmul_spec mn en m e Hcn Hc ltac:(lia) ltac:(lia))
    as (m' & e' & -> & Hc' & He' & Hr).
  exists m', e'. split; [reflexivity|]. split; [exact Hc'|].
  destruct Hr as (e0 & mr & H1 & H2 & H3 & H4 & H5 & H6).
  exists e0, mr. rewrite <- Hvn. repeat split; try assumption; lia.
Qed.

(** The quotient of [a < b] rounds below one. *)
Lemma quotient_lt_one a b m e :
  0 < a < b -> b <= 2 ^ 53 ->
  (forall x, (x * inject_Z b == inject_Z a)%Q -> rounds_to x m e) ->
  (Fval m e < 1)%Q.
Proof.
  intros Hab Hb Hr.
  pose proof (inject_Z_pos b ltac:(lia)) as Hbq.
  assert (Hx : (inject_Z a / inject_Z b * inject_Z b == inject_Z a)%Q) by (field; lra).
  specialize (Hr _ Hx).
  assert (Hc : canon 9007199254740991) by (unfold canon; simpl; lia).
  assert (Hle : (inject_Z a / inject_Z b <= Fval 9007199254740991 (-53))%Q).
  { apply (Qscale_le _ _ (inject_Z b) Hbq). rewrite Hx.
    assert (E : (Fval 9007199254740991 (-53) == 9007199254740991 # 9007199254740992)%Q)
      by reflexivity.
    rewrite E.
    assert (H1 : (inject_Z a + 1 <= inject_Z b)%Q).
    { change 1%Q with (inject_Z 1). rewrite <- inject_Z_plus, <- Zle_Qle. lia. }
    assert (H2 : (inject_Z b <= 9007199254740992 # 1)%Q).
    { change (9007199254740992 # 1)%Q with (inject_Z (2 ^ 53)). rewrite <- Zle_Qle. lia. }
    lra. }
  pose proof (rounds_to_le_upper _ m e _ _ Hr Hc Hle) as H.
  assert (E : (Fval 9007199254740991 (-53) == 9007199254740991 # 9007199254740992)%Q)
    by reflexivity.
  rewrite E in H. lra.
Qed.

(** The quotient of a number by itself rounds to one. *)
Lemma quotient_self a m e :
  0 < a ->
  (forall x, (x * inject_Z a == inject_Z a)%Q -> rounds_to x m e) ->
  (Fval m e == 1)%Q.
Proof.
  intros Ha Hr.
  assert (Hx : (1 * inject_Z a == inject_Z a)%Q) by ring.
  specialize (Hr _ Hx).
  assert (Hc : canon 4503599627370496) by (unfold canon; simpl; lia).
  apply (rounds_to_exact 1%Q m e 4503599627370496 (-52) Hr Hc). reflexivity.
Qed.

(** A float strictly below a rounded quotient is at most the quotient. *)
Lemma below_rounded_quotient a b m e m' e' :
  0 < b -> canon m' ->
  (forall x, (x * inject_Z b == inject_Z a)%Q -> rounds_to x m e) ->
  (Fval m' e' < Fval m e)%Q ->
  (Fval m' e' * inject_Z b <= inject_Z a)%Q.
Proof.
  intros Hb Hc Hr Hlt.
  pose proof (inject_Z_pos b Hb) as Hbq.
  assert (Hx : (inject_Z a / inject_Z b * inject_Z b == inject_Z a)%Q) by (field; lra).
  specialize (Hr _ Hx).
  destruct (Qlt_le_dec (inject_Z a) (Fval m' e' * inject_Z b)) as [Hgt|Hle]; [|exact Hle].
  exfalso.
  assert (Hle : (inject_Z a / inject_Z b <= Fval m' e')%Q).
  { apply (Qscale_le _ _ (inject_Z b) Hbq). rewrite Hx. lra. }
  pose proof (rounds_to_le_upper _ m e _ _ Hr Hc Hle). lra.
Qed.

(** A rounded quotient overshoots by a relative [2^-53] at most. *)
Lemma rounded_quotient_slack a b m e :
  0 < a -> 0 < b ->
  (forall x, (x * inject_Z b == inject_Z a)%Q -> rounds_to x m e) ->
  (Fval m e * inject_Z b <= inject_Z a * (1 + pow2 (-53)))%Q.
Proof.
  intros Ha Hb Hr.
  pose proof (inject_Z_pos b Hb) as Hbq.
  assert (Hx : (inject_Z a / inject_Z b * inject_Z b == inject_Z a)%Q) by (field; lra).
  specialize (Hr _ Hx). apply rounds_to_rel in Hr.
  assert (E : (pow2 (-53) == 1 # 9007199254740992)%Q) by reflexivity.
  rewrite E in *.
  revert Hx Hr. generalize (inject_Z a / inject_Z b)%Q. intros q Hx Hr.
  rewrite <- Hx.
  setoid_replace (q * inject_Z b * (1 + (1 # 9007199254740992)))%Q
    with ((q + q * (1 # 9007199254740992)) * inject_Z b)%Q by ring.
  apply Qmult_le_compat_r; lra.
Qed.

Lemma Qfloor_unique x z :
  (inject_Z z <= x)%Q -> (x < inject_Z (z + 1))%Q -> Qfloor x = z.
Proof.
  intros Hl Hu. pose proof (Qfloor_le x) as Fl. pose proof (Qlt_floor x) as Fu.
  apply Z.le_antisymm.
  - assert (H : (inject_Z (Qfloor x) < inject_Z (z + 1))%Q) by lra.
    rewrite <- Zlt_Qlt in H. lia.
  - assert (H : (inject_Z z < inject_Z (Qfloor x + 1))%Q) by lra.
    rewrite <- Zlt_Qlt in H. lia.
Qed.

(** On a positive float [int] is the floor of its value. *)
Lemma int_of_float_floor m e :
  int_of_float (S754_finite false m e)
  = Ok (Qfloor (F2Q (S754_finite false m e))).
Proof.
  unfold int_of_float, F2Q. cbn [cond_Zopp]. f_equal. symmetry.
  destruct (Z.leb_spec 0 e) as [He|He].
  - rewrite pow2_Z, <- inject_Z_mult by lia. apply Qfloor_Z.
  - assert (Hp : 0 < 2 ^ (- e)) by (apply Z.pow_pos_nonneg; lia).
    assert (Hq : (inject_Z (2 ^ (- e)) * pow2 e == 1)%Q).
    { rewrite <- pow2_Z, <- pow2_add by lia. replace (- e + e) with 0 by lia. reflexivity. }
    pose proof (inject_Z_pos _ Hp) as Hpq.
    pose proof (Z.div_mod (Zpos m) (2 ^ (- e)) ltac:(lia)) as Hdm.
    pose proof (Z.mod_pos_bound (Zpos m) (2 ^ (- e)) Hp) as Hb.
    set (t := Zpos m / 2 ^ (- e)) in *.
    assert (Hv : (inject_Z (Zpos m) * pow2 e * inject_Z (2 ^ (- e)) == inject_Z (Zpos m))%Q).
    { rewrite <- Qmult_assoc, (Qmult_comm (pow2 e)), Hq. ring. }
    apply Qfloor_unique.
    + apply (Qscale_le _ _ _ Hpq). rewrite Hv, <- inject_Z_mult, <- Zle_Qle. lia.
    + apply (Qscale_lt _ _ _ Hpq). rewrite Hv, <- inject_Z_mult, <- Zlt_Qlt. nia.
Qed.

(** Truncating [n * x] when the exact product is at most [z] up to one
    rounding error. *)
Lemma scaled_le n z m e :
  0 < n < 2 ^ 53 -> 0 < z < 2 ^ 31 -> canon m -> -200 <= e <= 200 ->
  (inject_Z n * Fval m e <= inject_Z z * (1 + pow2 (-53)))%Q ->
  exists t,
    int_of_float (mul_int_float n (S754_finite false m e)) = Ok t /\
    t = Qfloor (F2Q (mul_int_float n (S754_finite false m e))) /\
    0 <= t <= z.
Proof.
  intros Hn Hz Hc He Hx.
  destruct (mul_int_float_spec n m e Hn Hc He) as (m' & e' & -> & Hc' & Hr).
  cut (exists t, int_of_float (S754_finite false m' e') = Ok t /\ 0 <= t <= z).
  { intros (t & Et & Ht). exists t. split; [exact Et|]. split; [|exact Ht].
    rewrite int_of_float_floor in Et. injection Et as Et. symmetry. exact Et. }
  apply int_of_float_le.
  apply rounds_to_rel in Hr.
  assert (E : (pow2 (-53) == 1 # 9007199254740992)%Q) by reflexivity.
  rewrite E in *.
  assert (Hzq : (inject_Z z <= 2147483648 # 1)%Q).
  { change (2147483648 # 1)%Q with (inject_Z (2 ^ 31)). rewrite <- Zle_Qle. lia. }
  rewrite inject_Z_plus. change (inject_Z 1) with 1%Q.
  lra.
Qed.

Lemma flt_one_true m e :
  canon m -> (Fval m e < 1)%Q -> flt (S754_finite false m e) one = true.
Proof.
  intros Hc Hlt.
  change one with (S754_finite false 4503599627370496 (-52)). unfold flt.
  destruct (SFltb (S754_finite false m e) (S754_finite false 4503599627370496 (-52))) eqn:E;
    [reflexivity|].
  exfalso.
  assert (Hc1 : canon 4503599627370496) by (unfold canon; simpl; lia).
  pose proof (SFltb_false _ _ _ _ Hc Hc1 E) as H.
  assert (E1 : (Fval 4503599627370496 (-52) == 1)%Q) by reflexivity.
  rewrite E1 in H. lra.
Qed.

(** The quotient of [a <= b] rounds to at most one. *)
Lemma quotient_le_one a b m e :
  0 < a <= b ->
  (forall x, (x * inject_Z b == inject_Z a)%Q -> rounds_to x m e) ->
  (Fval m e <= 1)%Q.
Proof.
  intros Hab Hr.
  pose proof (inject_Z_pos b ltac:(lia)) as Hbq.
  assert (Hx : (inject_Z a / inject_Z b * inject_Z b == inject_Z a)%Q) by (field; lra).
  specialize (Hr _ Hx).
  assert (Hc : canon 4503599627370496) by (unfold canon; simpl; lia).
  assert (E1 : (Fval 4503599627370496 (-52) == 1)%Q) by reflexivity.
  rewrite <- E1. apply (rounds_to_le_upper _ m e _ _ Hr Hc).
  rewrite E1. apply (Qscale_le _ _ (inject_Z b) Hbq). rewrite Hx.
  assert (inject_Z a <= inject_Z b)%Q by (rewrite <- Zle_Qle; lia). lra.
Qed.

Lemma slack_of_le (a z : Q) : (0 <= z -> a <= z -> a <= z * (1 + pow2 (-53)))%Q.
Proof.
  intros Hz Ha.
  assert (E : (pow2 (-53) == 1 # 9007199254740992)%Q) by reflexivity.
  rewrite E. lra.
Qed.

(* ================================================================== *)
(** * The scaler: claims C1, C2, C3, C10 *)
(* ================================================================== *)

Section ScalerFacts.

Variable cv2_resize : ndarray -> Z * Z -> option ndarray.

Lemma resize_shape img w h out :
  resize_contract cv2_resize ->
  resize cv2_resize img (w, h) = Ok out -> shape0 out = h /\ shape1 out = w.
Proof.
  intros Hc. unfold resize.
  destruct (cv2_resize img (w, h)) as [o|] eqn:E; [|discriminate].
  intros [= <-]. exact (Hc _ _ _ _ E).
Qed.

(** The two branches of the scaler, on an image that does not fit. *)
Lemma bound_image_to_size_branches img maxH maxW :
  0 < shape0 img < 2 ^ 31 -> 0 < shape1 img < 2 ^ 31 ->
  0 < maxH < 2 ^ 31 -> 0 < maxW < 2 ^ 31 ->
  maxH < shape0 img \/ maxW < shape1 img ->
  exists scale w h,
    bound_image_to_size cv2_resize img (maxH, maxW)
      = resize cv2_resize img (w, h) /\
    flt scale one = true /\
    ((truediv maxH (shape0 img) = Ok scale /\ h = maxH /\
      int_of_float (mul_int_float (shape1 img) scale) = Ok w /\
      w = Qfloor (F2Q (mul_int_float (shape1 img) scale)) /\
      0 <= w <= maxW)
     \/
     (truediv maxW (shape1 img) = Ok scale /\ w = maxW /\
      int_of_float (mul_int_float (shape0 img) scale) = Ok h /\
      h = Qfloor (F2Q (mul_int_float (shape0 img) scale)) /\
      0 <= h <= maxH)).
Proof.
  intros HH HW HmH HmW Hbig.
  unfold bound_image_to_size. simpl fst. simpl snd.
  set (H := shape0 img) in *. set (W := shape1 img) in *.
  assert (Hfit : (H <=? maxH) && (W <=? maxW) = false).
  { apply andb_false_iff. rewrite !Z.leb_gt. exact Hbig. }
  rewrite Hfit.
  assert (Hp : 2 ^ 31 < 2 ^ 53) by reflexivity.
  pose proof (inject_Z_pos H ltac:(lia)) as HHq.
  pose proof (inject_Z_pos W ltac:(lia)) as HWq.
  pose proof (inject_Z_pos maxH ltac:(lia)) as HmHq.
  pose proof (inject_Z_pos maxW ltac:(lia)) as HmWq.
  destruct (truediv_spec maxH (Z.max H maxH) ltac:(lia) ltac:(lia))
    as (ml & el & El & Hcl & Hel & Hrl).
  destruct (truediv_spec maxW (Z.max W maxW) ltac:(lia) ltac:(lia))
    as (mr & er & Er & Hcr & Her & Hrr).
  rewrite El, Er. simpl bind.
  destruct (flt (S754_finite false ml el) (S754_finite false mr er)) eqn:Eflt.
  - (* Height is limiting *)
    apply (SFltb_true _ _ _ _ Hcl Hcr) in Eflt.
    pose proof (quotient_le_one maxW (Z.max W maxW) mr er ltac:(lia) Hrr) as Hr1.
    assert (HgtH : maxH < H).
    { destruct (Z_lt_le_dec maxH H) as [Hlt|Hle]; [exact Hlt|exfalso].
      rewrite Z.max_r in Hrl by lia.
      pose proof (quotient_self maxH ml el ltac:(lia) Hrl). lra. }
    rewrite Z.max_l in El, Hrl by lia.
    rewrite El. simpl bind.
    pose proof (quotient_lt_one maxH H ml el ltac:(lia) ltac:(lia) Hrl) as Hl1.
    assert (Hprod : (inject_Z W * Fval ml el <= inject_Z maxW * (1 + pow2 (-53)))%Q).
    { apply slack_of_le; [lra|].
      destruct (Z_lt_le_dec maxW W) as [Hlt|Hle].
      - rewrite Z.max_l in Hrr by lia.
        pose proof (below_rounded_quotient maxW W mr er ml el ltac:(lia) Hcl Hrr Eflt).
        lra.
      - assert (inject_Z W <= inject_Z maxW)%Q by (rewrite <- Zle_Qle; lia).
        nra. }
    destruct (scaled_le W maxW ml el ltac:(lia) HmW Hcl Hel Hprod) as (t & Et & Efl & Ht).
    rewrite Et. simpl bind.
    exists (S754_finite false ml el), t, maxH.
    split; [reflexivity|]. split; [apply flt_one_true; assumption|].
    left. repeat split; try assumption; lia.
  - (* Width is limiting *)
    apply (SFltb_false _ _ _ _ Hcl Hcr) in Eflt.
    assert (HgtW : maxW < W).
    { destruct (Z_lt_le_dec maxW W) as [Hlt|Hle]; [exact Hlt|exfalso].
      rewrite Z.max_r in Hrr by lia.
      pose proof (quotient_self maxW mr er ltac:(lia) Hrr).
      rewrite Z.max_l in Hrl by lia.
      pose proof (quotient_lt_one maxH H ml el ltac:(lia) ltac:(lia) Hrl). lra. }
    rewrite Z.max_l in Er, Hrr by lia.
    rewrite Er. simpl bind.
    pose proof (quotient_lt_one maxW W mr er ltac:(lia) ltac:(lia) Hrr) as Hr1.
    assert (Hprod : (inject_Z H * Fval mr er <= inject_Z maxH * (1 + pow2 (-53)))%Q).
    { destruct (Z_lt_le_dec maxH H) as [Hlt|Hle].
      - rewrite Z.max_l in Hrl by lia.
        pose proof (rounded_quotient_slack maxH H ml el ltac:(lia) ltac:(lia) Hrl) as Hs.
        apply Qle_trans with (inject_Z H * Fval ml el)%Q; [|lra].
        apply Qmult_le_l; assumption.
      - apply slack_of_le; [lra|].
        assert (inject_Z H <= inject_Z maxH)%Q by (rewrite <- Zle_Qle; lia).
        nra. }
    destruct (scaled_le H maxH mr er ltac:(lia) HmH Hcr Her Hprod) as (t & Et & Efl & Ht).
    rewrite Et. simpl bind.
    exists (S754_finite false mr er), maxW, t.
    split; [reflexivity|]. split; [apply flt_one_true; assumption|].
    right. repeat split; try assumption; lia.
Qed.


(** C2, as the code has it: on a 400x800 image with bound (200, 477) the
    height is the limiting dimension, since 200/400 < 477/800 in floats; the
    request is for height 200 and width int(800 * (200 / 400)) = 400, and
    that is the size of the image returned. *)
Theorem height_limits_400x800 img :
  resize_contract cv2_resize ->
  shape0 img = 400 -> shape1 img = 800 ->
  (lhs <- truediv 200 (Z.max 400 200) ;;
   rhs <- truediv 477 (Z.max 800 477) ;; Ok (flt lhs rhs)) = Ok true /\
  (scale <- truediv 200 400 ;; int_of_float (mul_int_float 800 scale)) = Ok 400 /\
  bound_image_to_size cv2_resize img (200, 477)
    = resize cv2_resize img (400, 200) /\
  forall out,
    bound_image_to_size cv2_resize img (200, 477) = Ok out ->
    shape0 out = 200 /\ shape1 out = 400.
Proof.
  intros Hc H0 H1.
  assert (E : bound_image_to_size cv2_resize img (200, 477)
              = resize cv2_resize img (400, 200)).
  { destruct img as [[[h w] c] it].
    unfold shape0, shape1 in *. simpl in H0, H1. subst h w.
    vm_compute. reflexivity. }
  split; [vm_compute; reflexivity|]. split; [vm_compute; reflexivity|].
  split; [exact E|].
  intros out Hout. rewrite E in Hout. exact (resize_shape _ _ _ _ Hc Hout).
Qed.

(** C3: an image within both bounds is returned as it is. *)
Theorem bound_image_to_size_fits img size :
  shape0 img <= fst size -> shape1 img <= snd size ->
  bound_image_to_size cv2_resize img size = Ok img.
Proof.
  intros H0 H1. unfold bound_image_to_size.
  apply Z.leb_le in H0, H1. rewrite H0, H1. reflexivity.
Qed.

(** C10: a 1x1000 image exceeds the width bound of (200, 477); the width
    is limiting, the height computed is int(1 * (477 / 1000)) = 0, and the
    resize is requested with the empty size (477, 0): whatever comes back
    is an error or an image without rows. *)
Theorem bound_1x1000_empty img :
  resize_contract cv2_resize ->
  shape0 img = 1 -> shape1 img = 1000 ->
  (scale <- truediv 477 1000 ;; int_of_float (mul_int_float 1 scale)) = Ok 0 /\
  bound_image_to_size cv2_resize img MAX_SIZE = resize cv2_resize img (477, 0) /\
  forall out,
    bound_image_to_size cv2_resize img MAX_SIZE = Ok out -> shape0 out = 0.
Proof.
  intros Hc H0 H1.
  assert (E : bound_image_to_size cv2_resize img MAX_SIZE
              = resize cv2_resize img (477, 0)).
  { destruct img as [[[h w] c] it].
    unfold shape0, shape1 in *. simpl in H0, H1. subst h w.
    vm_compute. reflexivity. }
  split; [vm_compute; reflexivity|]. split; [exact E|].
  intros out Hout. rewrite E in Hout.
  exact (proj1 (resize_shape _ _ _ _ Hc Hout)).
Qed.

(** The product is the binary64 one. On a 9800x49 image the scale 200/9800
    rounds below 1/49 and 49 times it rounds to the double just below 1, so
    the width requested is 0, where the exact quotient 49 * 200 / 9800 is 1.
    On a 600x3 image the scale 200/600 rounds below 1/3 but 3 times it
    rounds up to 1, so the width requested is 1. *)
Remark bound_float_products img img' :
  shape0 img = 9800 -> shape1 img = 49 ->
  shape0 img' = 600 -> shape1 img' = 3 ->
  bound_image_to_size cv2_resize img MAX_SIZE = resize cv2_resize img (0, 200) /\
  49 * 200 / 9800 = 1 /\
  bound_image_to_size cv2_resize img' MAX_SIZE = resize cv2_resize img' (1, 200).
Proof.
  intros H0 H1 H0' H1'.
  destruct img as [[[h w] c] it]. destruct img' as [[[h' w'] c'] it'].
  unfold shape0, shape1 in *. simpl in H0, H1, H0', H1'. subst h w h' w'.
  repeat split; vm_compute; reflexivity.
Qed.

End ScalerFacts.

Lemma nearest_resize_contract : resize_contract nearest_resize.
Proof.
  intros img w h out. unfold nearest_resize.
  destruct ((w <=? 0) || (h <=? 0)); [discriminate|].
  intros [= <-]. split; reflexivity.
Qed.


(** The figures of the 400x800 scenario, width 477 and height 238, are not
    what the scaler produces: the image comes out 200 high and 400 wide. *)
Lemma figures_477x238_refuted :
  shape_of (bound_image_to_size nearest_resize (solid 400 800 7) (200, 477))
    = Some (200, 400, 3) /\
  shape_of (bound_image_to_size nearest_resize (solid 400 800 7) (200, 477))
    <> Some (238, 477, 3).
Proof. split; vm_compute; [reflexivity|discriminate]. Qed.

Lemma height_limits_400x800_witness :
  (lhs <- truediv 200 (Z.max 400 200) ;;
   rhs <- truediv 477 (Z.max 800 477) ;; Ok (flt lhs rhs)) = Ok true /\
  (scale <- truediv 200 400 ;; int_of_float (mul_int_float 800 scale)) = Ok 400 /\
  bound_image_to_size nearest_resize (solid 400 800 7) (200, 477)
    = resize nearest_resize (solid 400 800 7) (400, 200) /\
  forall out,
    bound_image_to_size nearest_resize (solid 400 800 7) (200, 477) = Ok out ->
    shape0 out = 200 /\ shape1 out = 400.
Proof.
  apply (height_limits_400x800 nearest_resize (solid 400 800 7)).
  - exact nearest_resize_contract.
  - reflexivity.
  - reflexivity.
Defined.

Lemma bound_image_to_size_fits_witness :
  bound_image_to_size nearest_resize (solid 100 300 7) MAX_SIZE
    = Ok (solid 100 300 7).
Proof.
  apply (bound_image_to_size_fits nearest_resize (solid 100 300 7) MAX_SIZE).
  - unfold shape0; simpl; lia.
  - unfold shape1; simpl; lia.
Defined.

Lemma bound_1x1000_empty_witness :
  (scale <- truediv 477 1000 ;; int_of_float (mul_int_float 1 scale)) = Ok 0 /\
  bound_image_to_size nearest_resize (solid 1 1000 7) MAX_SIZE
    = resize nearest_resize (solid 1 1000 7) (477, 0) /\
  forall out,
    bound_image_to_size nearest_resize (solid 1 1000 7) MAX_SIZE = Ok out ->
    shape0 out = 0.
Proof.
  apply (bound_1x1000_empty nearest_resize (solid 1 1000 7)).
  - exact nearest_resize_contract.
  - reflexivity.
  - reflexivity.
Defined.

(* ================================================================== *)
(** * The column namer: claims C6, C7, C8 *)
(* ================================================================== *)

Lemma range_length lo hi : List.length (range lo hi) = Z.to_nat (hi - lo).
Proof. unfold range. rewrite length_map, length_seq. reflexivity. Qed.

Lemma range_nth_error lo hi i :
  nth_error (range lo hi) i
  = if (Z.of_nat i <? hi - lo) then Some (lo + Z.of_nat i) else None.
Proof.
  unfold range. rewrite nth_error_map.
  destruct (Z.ltb_spec (Z.of_nat i) (hi - lo)) as [H|H].
  - assert (Hi : (i < Z.to_nat (hi - lo))%nat) by lia.
    rewrite nth_error_nth' with (d := 0%nat) by (rewrite length_seq; exact Hi).
    rewrite seq_nth by exact Hi. reflexivity.
  - assert (Hn : nth_error (seq 0 (Z.to_nat (hi - lo))) i = None).
    { apply nth_error_None. rewrite length_seq. lia. }
    rewrite Hn. reflexivity.
Qed.

(** The index the loop uses is always inside [ascii_uppercase], and the
    letter found there stands for the digit [r + 1]. *)
Lemma letter_value_index r :
  0 <= r < 26 -> letter_value (index ascii_uppercase r) = r + 1.
Proof.
  intros Hr. remember (Z.to_nat r) as n eqn:En.
  assert (Hn : (n < 26)%nat) by lia.
  replace r with (Z.of_nat n) by lia. clear r Hr En.
  do 26 (destruct n as [|n]; [reflexivity|]). lia.
Qed.

Lemma string_app_assoc (s t u : string) :
  ((s ++ t) ++ u = s ++ (t ++ u))%string.
Proof. induction s as [|c s IH]; simpl; [reflexivity|rewrite IH; reflexivity]. Qed.

Lemma string_app_length (s t : string) :
  String.length (s ++ t) = (String.length s + String.length t)%nat.
Proof. induction s as [|c s IH]; simpl; [reflexivity|rewrite IH; reflexivity]. Qed.

Lemma get_col_name_loop_app n : forall col,
  get_col_name_loop n col = (get_col_name_loop n "" ++ col)%string.
Proof.
  induction n as [n IH] using (well_founded_induction (Z.lt_wf 0)).
  intros col. rewrite (get_col_name_loop_equation n col).
  rewrite (get_col_name_loop_equation n "").
  destruct (Z.ltb_spec 0 n) as [Hn|Hn]; [|reflexivity].
  assert (Hq : 0 <= (n - 1) / 26 < n) by quotient_bounds.
  rewrite (IH _ Hq (String _ col)), (IH _ Hq (String _ "")).
  rewrite string_app_assoc. reflexivity.
Qed.

(** One step of the naming: the name of [n] is the name of [(n - 1) / 26]
    followed by the letter of [(n - 1) mod 26]. *)
Lemma get_col_name_step n :
  0 < n ->
  get_col_name n
  = (get_col_name ((n - 1) / 26)
     ++ String (index ascii_uppercase ((n - 1) mod 26)) "")%string.
Proof.
  intros Hn. unfold get_col_name.
  rewrite (get_col_name_loop_equation n "").
  apply Z.ltb_lt in Hn. rewrite Hn.
  apply get_col_name_loop_app.
Qed.

Lemma get_col_name_nonpos n : n <= 0 -> get_col_name n = ""%string.
Proof.
  intros Hn. unfold get_col_name. rewrite get_col_name_loop_equation.
  destruct (Z.ltb_spec 0 n); [lia|reflexivity].
Qed.

Lemma col_number_from_app s : forall acc t,
  col_number_from acc (s ++ t) = col_number_from (col_number_from acc s) t.
Proof. induction s as [|c s IH]; intros acc t; simpl; [reflexivity|apply IH]. Qed.

Lemma col_number_get_col_name n : 0 <= n -> col_number (get_col_name n) = n.
Proof.
  induction n as [n IH] using (well_founded_induction (Z.lt_wf 0)).
  intros Hn. destruct (Z.eq_dec n 0) as [->|Hne].
  - reflexivity.
  - rewrite get_col_name_step by lia.
    assert (Hq : 0 <= (n - 1) / 26 < n) by quotient_bounds.
    unfold col_number in *. rewrite col_number_from_app, (IH _ Hq) by lia.
    cbn [col_number_from].
    rewrite letter_value_index by (apply Z.mod_pos_bound; lia).
    pose proof (Z.div_mod (n - 1) 26 ltac:(lia)). lia.
Qed.

(** C6: the five reference names of the bijective base-26 naming. *)
Theorem get_col_name_examples :
  get_col_name 1 = "A"%string /\
  get_col_name 26 = "Z"%string /\
  get_col_name 27 = "AA"%string /\
  get_col_name 702 = "ZZ"%string /\
  get_col_name 703 = "AAA"%string.
Proof. repeat split; vm_compute; reflexivity. Qed.

(** C7: decoding the name of a positive column number under bijective
    base 26 gives the number back, so distinct numbers have distinct names;
    this holds for every positive number, 18278 (the name ZZZ) included. *)
Theorem get_col_name_round_trip n m :
  1 <= n -> 1 <= m ->
  col_number (get_col_name n) = n /\
  get_col_name 18278 = "ZZZ"%string /\
  (get_col_name n = get_col_name m -> n = m).
Proof.
  intros Hn Hm. split; [apply col_number_get_col_name; lia|].
  split; [vm_compute; reflexivity|].
  intros E. rewrite <- (col_number_get_col_name n), <- (col_number_get_col_name m) by lia.
  rewrite E. reflexivity.
Qed.

Lemma get_col_name_round_trip_witness :
  col_number (get_col_name 18278) = 18278 /\
  get_col_name 18278 = "ZZZ"%string /\
  (get_col_name 18278 = get_col_name 703 -> 18278 = 703).
Proof. apply (get_col_name_round_trip 18278 703); lia. Defined.

(** ** Names come out in spreadsheet order *)

Lemma nat_of_ascii_index r :
  0 <= r < 26 -> Z.of_nat (nat_of_ascii (index ascii_uppercase r)) = r + 65.
Proof.
  intros Hr. pose proof (letter_value_index r Hr) as H.
  unfold letter_value in H. lia.
Qed.

Lemma get_col_name_length n :
  0 < n ->
  String.length (get_col_name n) = S (String.length (get_col_name ((n - 1) / 26))).
Proof.
  intros Hn. rewrite get_col_name_step by exact Hn.
  rewrite string_app_length. simpl. lia.
Qed.

Lemma get_col_name_length_mono m : forall n,
  0 <= n <= m ->
  (String.length (get_col_name n) <= String.length (get_col_name m))%nat.
Proof.
  induction m as [m IH] using (well_founded_induction (Z.lt_wf 0)).
  intros n Hn. destruct (Z.eq_dec n 0) as [->|Hne].
  - rewrite (get_col_name_nonpos 0) by lia. simpl. lia.
  - rewrite (get_col_name_length n), (get_col_name_length m) by lia.
    apply le_n_S. apply IH.
    + quotient_bounds.
    + split; [apply Z.div_pos; lia|apply Z.div_le_mono; lia].
Qed.

Lemma lex_ltb_app s : forall t u v,
  String.length s = String.length t ->
  lex_ltb s t = true -> lex_ltb (s ++ u) (t ++ v) = true.
Proof.
  induction s as [|a s IH]; intros [|b t] u v Hlen H; simpl in *; try discriminate.
  apply orb_true_iff in H. apply orb_true_iff.
  destruct H as [H|H]; [left; exact H|right].
  apply andb_true_iff in H. destruct H as [Hab Hst].
  rewrite Hab. simpl. apply IH; [lia|exact Hst].
Qed.

Lemma lex_ltb_last s a b :
  (nat_of_ascii a < nat_of_ascii b)%nat ->
  lex_ltb (s ++ String a "") (s ++ String b "") = true.
Proof.
  intros Hab. induction s as [|c s IH]; simpl.
  - apply Nat.ltb_lt in Hab. rewrite Hab. reflexivity.
  - rewrite Ascii.eqb_refl, IH. simpl. apply orb_true_r.
Qed.

Lemma get_col_name_lex m : forall n,
  0 <= n < m ->
  String.length (get_col_name n) = String.length (get_col_name m) ->
  lex_ltb (get_col_name n) (get_col_name m) = true.
Proof.
  induction m as [m IH] using (well_founded_induction (Z.lt_wf 0)).
  intros n Hn Hlen.
  assert (Hm : 0 < m) by lia.
  destruct (Z.eq_dec n 0) as [->|Hne].
  - rewrite (get_col_name_nonpos 0), (get_col_name_length m) in Hlen by lia.
    simpl in Hlen. discriminate.
  - rewrite (get_col_name_length n), (get_col_name_length m) in Hlen by lia.
    injection Hlen as Hlen.
    rewrite (get_col_name_step n), (get_col_name_step m) by lia.
    assert (Hqm : 0 <= (m - 1) / 26 < m) by quotient_bounds.
    assert (Hqn : 0 <= (n - 1) / 26 <= (m - 1) / 26).
    { split; [apply Z.div_pos; lia|apply Z.div_le_mono; lia]. }
    destruct (Z.eq_dec ((n - 1) / 26) ((m - 1) / 26)) as [Eq|Hlt].
    + rewrite Eq. apply lex_ltb_last.
      pose proof (Z.div_mod (n - 1) 26 ltac:(lia)).
      pose proof (Z.div_mod (m - 1) 26 ltac:(lia)).
      pose proof (Z.mod_pos_bound (n - 1) 26 ltac:(lia)) as Bn.
      pose proof (Z.mod_pos_bound (m - 1) 26 ltac:(lia)) as Bm.
      pose proof (nat_of_ascii_index _ Bn). pose proof (nat_of_ascii_index _ Bm).
      lia.
    + apply lex_ltb_app; [exact Hlen|]. apply IH; [exact Hqm|lia|exact Hlen].
Qed.

(** The naming is strictly increasing for the spreadsheet order. *)
Lemma get_col_name_lt n m : 0 <= n < m -> col_lt (get_col_name n) (get_col_name m).
Proof.
  intros Hnm. unfold col_lt, col_ltb.
  pose proof (get_col_name_length_mono m n ltac:(lia)) as Hle.
  destruct (Nat.ltb_spec (String.length (get_col_name n)) (String.length (get_col_name m)))
    as [Hlt|Hge]; [reflexivity|].
  assert (Heq : String.length (get_col_name n) = String.length (get_col_name m)) by lia.
  rewrite Heq, Nat.eqb_refl. simpl. apply get_col_name_lex; assumption.
Qed.

Lemma StronglySorted_map_seq {A} (R : A -> A -> Prop) (g : nat -> A) k : forall s,
  (forall a b, (s <= a < b)%nat -> R (g a) (g b)) ->
  StronglySorted R (map g (seq s k)).
Proof.
  induction k as [|k IH]; intros s Hg; simpl.
  - constructor.
  - constructor.
    + apply IH. intros a b Hab. apply Hg. lia.
    + apply Forall_forall. intros x Hx.
      apply in_map_iff in Hx. destruct Hx as (b & <- & Hb).
      apply in_seq in Hb. apply Hg. lia.
Qed.

(** C8: [iter_col_names n] yields exactly [n] names, the i-th of them the
    name of column [i], in strictly ascending spreadsheet order. *)
Theorem iter_col_names_spec n :
  0 <= n ->
  List.length (iter_col_names n) = Z.to_nat n /\
  (forall i : nat,
     nth_error (iter_col_names n) i
     = if Z.of_nat i <? n then Some (get_col_name (Z.of_nat i + 1)) else None) /\
  StronglySorted col_lt (iter_col_names n).
Proof.
  intros Hn. unfold iter_col_names. split; [|split].
  - rewrite length_map, range_length. f_equal. lia.
  - intros i. rewrite nth_error_map, range_nth_error.
    replace (n + 1 - 1) with n by lia.
    destruct (Z.of_nat i <? n); unfold option_map; [|reflexivity].
    rewrite Z.add_comm. reflexivity.
  - unfold range. rewrite map_map. apply StronglySorted_map_seq.
    intros a b Hab. apply get_col_name_lt. lia.
Qed.

Lemma iter_col_names_spec_witness :
  List.length (iter_col_names 28) = Z.to_nat 28 /\
  (forall i : nat,
     nth_error (iter_col_names 28) i
     = if Z.of_nat i <? 28 then Some (get_col_name (Z.of_nat i + 1)) else None) /\
  StronglySorted col_lt (iter_col_names 28).
Proof. apply (iter_col_names_spec 28). lia. Defined.

(* ================================================================== *)
(** * The grid writer: claim C4 *)
(* ================================================================== *)

Lemma for_each_rows_unchanged {A} (xs : list A) (body : A -> Worksheet -> Worksheet) :
  (forall x ws, rows (body x ws) = rows ws) ->
  forall ws, rows (for_each xs body ws) = rows ws.
Proof.
  intros Hb. unfold for_each.
  induction xs as [|x xs IH]; intros ws; simpl; [reflexivity|].
  rewrite IH. apply Hb.
Qed.

Lemma for_each_append {A} (f : A -> list Cell) (xs : list A) : forall ws,
  rows (for_each xs (fun x => append (f x)) ws) = (rows ws ++ map f xs)%list.
Proof.
  unfold for_each.
  induction xs as [|x xs IH]; intros ws; simpl.
  - rewrite app_nil_r. reflexivity.
  - rewrite IH. simpl. rewrite <- app_assoc. reflexivity.
Qed.

Lemma for_each_nested_append {A B} (f : A -> B -> list Cell) (ys : list B)
    (xs : list A) : forall ws,
  rows (for_each xs (fun x => for_each ys (fun y => append (f x y))) ws)
  = (rows ws ++ flat_map (fun x => map (f x) ys) xs)%list.
Proof.
  induction xs as [|x xs IH]; intros ws.
  - simpl. rewrite app_nil_r. reflexivity.
  - change (for_each (x :: xs) ?b ws) with (for_each xs b (b x ws)).
    rewrite IH, for_each_append. simpl. rewrite <- app_assoc. reflexivity.
Qed.

(** The rows the writer appends, image row by image row, channel by
    channel. *)
Lemma rows_of_write_img_to_ws img ws :
  rows (write_img_to_ws img ws)
  = (rows ws
     ++ flat_map (fun r => map (fun channel => map cell (row_channel img r channel))
                               (range 0 (shape2 img)))
                 (range 0 (shape0 img)))%list.
Proof.
  unfold write_img_to_ws.
  rewrite for_each_nested_append.
  rewrite !for_each_rows_unchanged; reflexivity.
Qed.

Lemma nth_error_triples {A} (g : nat -> nat -> A) k : forall s i,
  nth_error (flat_map (fun r => [g r 0%nat; g r 1%nat; g r 2%nat]) (seq s k)) i
  = if (i <? 3 * k)%nat then Some (g (s + i / 3)%nat (i mod 3)%nat) else None.
Proof.
  induction k as [|k IH]; intros s i.
  - simpl. destruct i; reflexivity.
  - change (seq s (S k)) with (s :: seq (S s) k).
    cbn [flat_map app].
    destruct i as [|[|[|i]]].
    + destruct (Nat.ltb_spec 0 (3 * S k)); [|lia].
      rewrite Nat.div_small, Nat.mod_small, Nat.add_0_r by lia. reflexivity.
    + destruct (Nat.ltb_spec 1 (3 * S k)); [|lia].
      rewrite Nat.div_small, Nat.mod_small, Nat.add_0_r by lia. reflexivity.
    + destruct (Nat.ltb_spec 2 (3 * S k)); [|lia].
      rewrite Nat.div_small, Nat.mod_small, Nat.add_0_r by lia. reflexivity.
    + cbn [nth_error]. rewrite IH.
      replace (S (S (S i))) with (i + 1 * 3)%nat by lia.
      rewrite Nat.div_add, Nat.Div0.mod_add by lia.
      destruct (Nat.ltb_spec i (3 * k)), (Nat.ltb_spec (i + 1 * 3) (3 * S k));
        try lia; [|reflexivity].
      f_equal. f_equal. lia.
Qed.

Lemma length_triples {A} (g : nat -> nat -> A) l :
  List.length (flat_map (fun r => [g r 0%nat; g r 1%nat; g r 2%nat]) l)
  = (3 * List.length l)%nat.
Proof. induction l as [|x l IH]; simpl in *; lia. Qed.

Lemma map_value_cell l : map value (map cell l) = l.
Proof. induction l as [|x l IH]; simpl; [reflexivity|rewrite IH; reflexivity]. Qed.

(** C4: on an H x W x 3 image the writer appends exactly 3 * H rows; the
    row at 0-indexed position [i = 3 * r + c] holds, in column order and
    unmodified, the W channel-c intensities of image row r. *)
Theorem write_img_to_ws_rows img ws H W :
  shape img = (H, W, 3) -> 0 <= H -> 0 <= W ->
  exists new,
    rows (write_img_to_ws img ws) = (rows ws ++ new)%list /\
    List.length new = Z.to_nat (H * 3) /\
    (forall i : nat,
       nth_error new i
       = if Z.of_nat i <? H * 3
         then Some (map cell (row_channel img (Z.of_nat i / 3) (Z.of_nat i mod 3)))
         else None) /\
    (forall r c,
       0 <= r < H -> 0 <= c < 3 ->
       nth_error new (Z.to_nat (3 * r + c)) = Some (map cell (row_channel img r c))) /\
    (forall r c,
       List.length (map cell (row_channel img r c)) = Z.to_nat W /\
       map value (map cell (row_channel img r c))
       = map (fun col => item img r col c) (range 0 W)).
Proof.
  intros Hs HH HW.
  assert (H0 : shape0 img = H) by (unfold shape0; rewrite Hs; reflexivity).
  assert (H1 : shape1 img = W) by (unfold shape1; rewrite Hs; reflexivity).
  assert (H2 : shape2 img = 3) by (unfold shape2; rewrite Hs; reflexivity).
  eexists. split; [apply rows_of_write_img_to_ws|].
  rewrite H0, H2.
  set (g := fun r ch : nat => map cell (row_channel img (Z.of_nat r) (Z.of_nat ch))).
  assert (E : flat_map (fun r => map (fun channel => map cell (row_channel img r channel))
                                     (range 0 3)) (range 0 H)
              = flat_map (fun r => [g r 0%nat; g r 1%nat; g r 2%nat])
                         (seq 0 (Z.to_nat H))).
  { unfold range. rewrite !Z.sub_0_r. rewrite flat_map_concat_map, map_map.
    rewrite <- flat_map_concat_map. apply flat_map_ext. intros a. reflexivity. }
  rewrite E.
  assert (Hnth : forall i : nat,
    nth_error (flat_map (fun r => [g r 0%nat; g r 1%nat; g r 2%nat]) (seq 0 (Z.to_nat H))) i
    = if Z.of_nat i <? H * 3
      then Some (map cell (row_channel img (Z.of_nat i / 3) (Z.of_nat i mod 3)))
      else None).
  { intros i. rewrite nth_error_triples.
    destruct (Nat.ltb_spec i (3 * Z.to_nat H)), (Z.ltb_spec (Z.of_nat i) (H * 3)); try lia;
      [|reflexivity].
    unfold g. rewrite Nat.add_0_l.
    rewrite Nat2Z.inj_div, Nat2Z.inj_mod. reflexivity. }
  split; [|split; [|split]].
  - rewrite length_triples, length_seq. lia.
  - exact Hnth.
  - intros r c Hr Hc. rewrite Hnth, Z2Nat.id by lia.
    destruct (Z.ltb_spec (3 * r + c) (H * 3)); [|lia].
    replace (3 * r + c) with (c + r * 3) by ring.
    rewrite Z.div_add, Z.mod_add, Z.div_small, Z.mod_small by lia.
    reflexivity.
  - intros r c. split.
    + rewrite length_map. unfold row_channel. rewrite length_map, range_length, H1.
      f_equal. lia.
    + rewrite map_value_cell. unfold row_channel. rewrite H1. reflexivity.
Qed.

Lemma write_img_to_ws_rows_witness :
  exists new,
    rows (write_img_to_ws sample_image (create_sheet "Image"))
    = (rows (create_sheet "Image") ++ new)%list /\
    List.length new = Z.to_nat (2 * 3) /\
    (forall i : nat,
       nth_error new i
       = if Z.of_nat i <? 2 * 3
         then Some (map cell (row_channel sample_image (Z.of_nat i / 3) (Z.of_nat i mod 3)))
         else None) /\
    (forall r c,
       0 <= r < 2 -> 0 <= c < 3 ->
       nth_error new (Z.to_nat (3 * r + c))
       = Some (map cell (row_channel sample_image r c))) /\
    (forall r c,
       List.length (map cell (row_channel sample_image r c)) = Z.to_nat 2 /\
       map value (map cell (row_channel sample_image r c))
       = map (fun col => item sample_image r col c) (range 0 2)).
Proof.
  apply (write_img_to_ws_rows sample_image (create_sheet "Image") 2 2).
  - reflexivity.
  - lia.
  - lia.
Defined.

(* ================================================================== *)
(** * The colour rules: claim C5 *)
(* ================================================================== *)

Lemma for_each_add_rule {A} (f : A -> string) (g : A -> ColorScaleRule)
    (xs : list A) : forall ws,
  conditional_formatting (for_each xs (fun x => add_rule (f x) (g x)) ws)
  = (conditional_formatting ws ++ map (fun x => (f x, g x)) xs)%list /\
  rows (for_each xs (fun x => add_rule (f x) (g x)) ws) = rows ws.
Proof.
  unfold for_each.
  induction xs as [|x xs IH]; intros ws; simpl.
  - rewrite app_nil_r. split; reflexivity.
  - destruct (IH (add_rule (f x) (g x) ws)) as [E1 E2].
    rewrite E1, E2. simpl. rewrite <- app_assoc. split; reflexivity.
Qed.






(* ================================================================== *)
(** * The program: claim C9 *)
(* ================================================================== *)

(** The scaler never raises a plain [Exception]: its failures are Python's
    arithmetic errors or OpenCV's. *)
Lemma bound_image_to_size_not_exception cv2_resize img size e msg :
  bound_image_to_size cv2_resize img size = Raise e -> e <> Exception msg.
Proof.
  unfold bound_image_to_size, truediv, resize.
  destruct ((shape0 img <=? fst size) && (shape1 img <=? snd size)); [discriminate|].
  destruct (Z.max (shape0 img) (fst size) =? 0); simpl bind; [intros [= <-]; discriminate|].
  destruct (Z.max (shape1 img) (snd size) =? 0); simpl bind; [intros [= <-]; discriminate|].
  destruct (flt _ _).
  - destruct (shape0 img =? 0); simpl bind; [intros [= <-]; discriminate|].
    destruct (int_of_float _) as [w|e'] eqn:Ei; simpl bind.
    + destruct (cv2_resize img (w, fst size)); [discriminate|].
      intros [= <-]. discriminate.
    + intros [= <-]. unfold int_of_float in Ei.
      destruct (mul_int_float _ _); try discriminate; injection Ei as <-; discriminate.
  - destruct (shape1 img =? 0); simpl bind; [intros [= <-]; discriminate|].
    destruct (int_of_float _) as [h|e'] eqn:Ei; simpl bind.
    + destruct (cv2_resize img (snd size, h)); [discriminate|].
      intros [= <-]. discriminate.
    + intros [= <-]. unfold int_of_float in Ei.
      destruct (mul_int_float _ _); try discriminate; injection Ei as <-; discriminate.
Qed.

Section MainFacts.

Variable cv2_imread : string -> option ndarray.
Variable cv2_resize : ndarray -> Z * Z -> option ndarray.
Variable path_stem : string -> string.
Variable FileSystem : Type.
Variable wb_save : Workbook -> string -> FileSystem -> option FileSystem.

(** C9: when the decoder returns no image, [main] raises its load failure
    at once, whatever the resizer and the save would do, and the file
    system is left as it was; when the decoder returns an image, [main]
    never raises an [Exception]: the load failure is the script's only
    error of its own and it is raised exactly on a failed decode. *)
Theorem main_decode_failure image output fs :
  let run := main cv2_imread cv2_resize path_stem FileSystem wb_save in
  match cv2_imread image with
  | None => run image output fs = (Raise (load_failure image), fs)
  | Some _ => forall msg, fst (run image output fs) <> Raise (Exception msg)
  end /\
  (fst (run image output fs) = Raise (load_failure image)
   <-> cv2_imread image = None).
Proof.
  intros run.
  assert (Hsome : forall img, cv2_imread image = Some img ->
                  forall msg, fst (run image output fs) <> Raise (Exception msg)).
  { intros img E msg. unfold run, main. rewrite E.
    destruct (bound_image_to_size cv2_resize img MAX_SIZE) as [img'|e] eqn:Eb.
    - destruct (wb_save _ _ fs); simpl; discriminate.
    - simpl. intros [= ->].
      exact (bound_image_to_size_not_exception _ _ _ _ _ Eb eq_refl). }
  assert (Hnone : cv2_imread image = None ->
                  run image output fs = (Raise (load_failure image), fs)).
  { intros E. unfold run, main. rewrite E. reflexivity. }
  split.
  - destruct (cv2_imread image) as [img|] eqn:E.
    + exact (Hsome img eq_refl).
    + exact (Hnone eq_refl).
  - split.
    + intros Hr. destruct (cv2_imread image) as [img|] eqn:E; [|reflexivity].
      exfalso. exact (Hsome img eq_refl _ Hr).
    + intros E. rewrite (Hnone E). reflexivity.
Qed.

End MainFacts.

(** A run on a path the decoder refuses, with a save that would succeed:
    the list of saved files stays empty. *)
Lemma main_decode_failure_witness :
  let run := main (fun _ => None) nearest_resize (fun p => p)
                  (list (string * Workbook))
                  (fun wb path fs => Some ((path, wb) :: fs)) in
  (run "missing.png"%string None [] = (Raise (load_failure "missing.png"), [])) /\
  (fst (run "missing.png"%string None []) = Raise (load_failure "missing.png")
   <-> (None : option ndarray) = None).
Proof.
  exact (main_decode_failure (fun _ => None) nearest_resize (fun p => p)
           (list (string * Workbook))
           (fun wb path fs => Some ((path, wb) :: fs))
           "missing.png"%string None []).
Defined.

(* ================================================================== *)
(** * Further properties of the scaler *)
(* ================================================================== *)

Lemma rounds_to_rel_lower x m e :
  rounds_to x m e -> (x - x * pow2 (-53) <= Fval m e)%Q.
Proof.
  intros (e0 & mr & Hv & Hmr & Hlo & Hhi & Hup & Hdn).
  rewrite Hv. pose proof (pow2_pos e0) as Hp.
  assert (E : (pow2 (-53) == 1 # 9007199254740992)%Q) by reflexivity.
  rewrite E. change (inject_Z (2 ^ 52)) with (4503599627370496 # 1)%Q in Hlo.
  lra.
Qed.

(** [int(n * (a / b))] in floats is the exact quotient [n * a // b] or one
    below it, for operands below [2^25]. *)
Lemma scaled_floor_range n a b :
  0 < n < 2 ^ 25 -> 0 < a < 2 ^ 25 -> 0 < b < 2 ^ 25 ->
  exists scale t,
    truediv a b = Ok scale /\
    int_of_float (mul_int_float n scale) = Ok t /\
    n * a / b - 1 <= t <= n * a / b.
Proof.
  intros Hn Ha Hb.
  assert (Hp : 2 ^ 25 < 2 ^ 53) by reflexivity.
  destruct (truediv_spec a b ltac:(lia) ltac:(lia)) as (m & e & Es & Hc & He & Hr).
  pose proof (inject_Z_pos b ltac:(lia)) as Hbq.
  pose proof (inject_Z_pos n ltac:(lia)) as Hnq.
  assert (Hq : (inject_Z a / inject_Z b * inject_Z b == inject_Z a)%Q) by (field; lra).
  specialize (Hr _ Hq).
  pose proof (rounds_to_rel _ _ _ Hr) as Hsu.
  pose proof (rounds_to_rel_lower _ _ _ Hr) as Hsl.
  destruct (mul_int_float_spec n m e ltac:(lia) Hc He) as (m' & e' & Ev & Hc' & Hr').
  pose proof (rounds_to_rel _ _ _ Hr') as Hvu.
  pose proof (rounds_to_rel_lower _ _ _ Hr') as Hvl.
  exists (S754_finite false m e), (Qfloor (Fval m' e')).
  split; [exact Es|]. split; [rewrite Ev; apply int_of_float_floor|].
  pose proof (Qfloor_le (Fval m' e')) as Ftl.
  pose proof (Qlt_floor (Fval m' e')) as Ftu.
  rewrite inject_Z_plus in Ftu. change (inject_Z 1) with 1%Q in Ftu.
  set (t := Qfloor (Fval m' e')) in *.
  set (K := n * a / b).
  pose proof (Z.div_mod (n * a) b ltac:(lia)) as Hdm.
  pose proof (Z.mod_pos_bound (n * a) b ltac:(lia)) as Hmb.
  fold K in Hdm.
  assert (HK1 : K * b <= n * a) by lia.
  assert (HK2 : n * a + 1 <= (K + 1) * b) by lia.
  assert (HA : 0 < n * a < 2 ^ 50).
  { change (2 ^ 50) with (2 ^ 25 * 2 ^ 25). split; nia. }
  assert (Hb1 : 1 <= b) by lia.
  rewrite Zle_Qle, !inject_Z_mult in HK1.
  rewrite Zle_Qle in HK2.
  repeat (rewrite inject_Z_plus in HK2 || rewrite inject_Z_mult in HK2).
  change (inject_Z 1) with 1%Q in HK2.
  rewrite Zle_Qle in Hb1. change (inject_Z 1) with 1%Q in Hb1.
  destruct HA as [HA0 HA1].
  rewrite Zlt_Qlt in HA0, HA1. change (inject_Z 0) with 0%Q in HA0.
  change (inject_Z (2 ^ 50)) with (1125899906842624 # 1)%Q in HA1.
  rewrite inject_Z_mult in HA0, HA1.
  assert (E : (pow2 (-53) == 1 # 9007199254740992)%Q) by reflexivity.
  rewrite E in Hsu, Hsl, Hvu, Hvl.
  (* the exact product times b is n * a *)
  set (q := (inject_Z a / inject_Z b)%Q) in *.
  assert (HX : (inject_Z n * q * inject_Z b == inject_Z n * inject_Z a)%Q).
  { rewrite <- Qmult_assoc, Hq. reflexivity. }
  assert (Hq0 : (0 <= q)%Q).
  { apply (Qscale_le _ _ (inject_Z b) Hbq). rewrite Hq.
    assert (0 <= inject_Z a)%Q by (change 0%Q with (inject_Z 0); rewrite <- Zle_Qle; lia).
    lra. }
  (* n * s between the exact product and its perturbations *)
  assert (Hnsu : (inject_Z n * Fval m e
                  <= inject_Z n * (q + q * (1 # 9007199254740992)))%Q)
    by (apply Qmult_le_l; assumption).
  assert (Hnsl : (inject_Z n * (q - q * (1 # 9007199254740992))
                  <= inject_Z n * Fval m e)%Q)
    by (apply Qmult_le_l; assumption).
  set (v := Fval m' e') in *. set (ns := (inject_Z n * Fval m e)%Q) in *.
  assert (Hvb_u : (v * inject_Z b
                   <= (ns + ns * (1 # 9007199254740992)) * inject_Z b)%Q)
    by (apply Qmult_le_compat_r; lra).
  assert (Hvb_l : ((ns - ns * (1 # 9007199254740992)) * inject_Z b
                   <= v * inject_Z b)%Q)
    by (apply Qmult_le_compat_r; lra).
  assert (Hnsb_u : (ns * inject_Z b
                    <= inject_Z n * (q + q * (1 # 9007199254740992)) * inject_Z b)%Q)
    by (apply Qmult_le_compat_r; lra).
  assert (Hnsb_l : (inject_Z n * (q - q * (1 # 9007199254740992)) * inject_Z b
                    <= ns * inject_Z b)%Q)
    by (apply Qmult_le_compat_r; lra).
  assert (Htb_u : (inject_Z t * inject_Z b <= v * inject_Z b)%Q)
    by (apply Qmult_le_compat_r; lra).
  assert (Htb_l : (v * inject_Z b <= (inject_Z t + 1) * inject_Z b)%Q)
    by (apply Qmult_le_compat_r; lra).
  clearbody q ns v.
  split.
  - destruct (Z_lt_le_dec t (K - 1)) as [Hlt|Hge]; [exfalso|exact Hge].
    assert (Ht2 : (inject_Z t + 2 <= inject_Z K)%Q).
    { change 2%Q with (inject_Z 2). rewrite <- inject_Z_plus, <- Zle_Qle. lia. }
    assert (Hm1 : ((inject_Z t + 1) * inject_Z b <= (inject_Z K - 1) * inject_Z b)%Q)
      by (apply Qmult_le_compat_r; lra).
    revert HX HK1 HK2 Hb1 HA0 HA1 Hvb_l Hnsb_l Htb_l Hm1.
    generalize (inject_Z n) (inject_Z a) (inject_Z b) (inject_Z K) (inject_Z t).
    intros nq aq bq Kq tq HX HK1 HK2 Hb1 HA0 HA1 Hvb_l Hnsb_l Htb_l Hm1.
    nra.
  - destruct (Z_lt_le_dec K t) as [Hlt|Hge]; [exfalso|exact Hge].
    assert (Ht2 : (inject_Z K + 1 <= inject_Z t)%Q).
    { change 1%Q with (inject_Z 1). rewrite <- inject_Z_plus, <- Zle_Qle. lia. }
    assert (Hm1 : ((inject_Z K + 1) * inject_Z b <= inject_Z t * inject_Z b)%Q)
      by (apply Qmult_le_compat_r; lra).
    revert HX HK1 HK2 Hb1 HA0 HA1 Hvb_u Hnsb_u Htb_u Hm1.
    generalize (inject_Z n) (inject_Z a) (inject_Z b) (inject_Z K) (inject_Z t).
    intros nq aq bq Kq tq HX HK1 HK2 Hb1 HA0 HA1 Hvb_u Hnsb_u Htb_u Hm1.
    nra.
Qed.

Section ScalerMore.

Variable cv2_resize : ndarray -> Z * Z -> option ndarray.

(** The scaler either returns the image, when it fits, or hands OpenCV a
    target size inside the bounds. *)
Lemma bound_image_to_size_outcome img maxH maxW :
  0 < shape0 img < 2 ^ 31 -> 0 < shape1 img < 2 ^ 31 ->
  0 < maxH < 2 ^ 31 -> 0 < maxW < 2 ^ 31 ->
  bound_image_to_size cv2_resize img (maxH, maxW) = Ok img \/
  exists w h,
    bound_image_to_size cv2_resize img (maxH, maxW) = resize cv2_resize img (w, h) /\
    0 <= w <= maxW /\ 0 <= h <= maxH.
Proof.
  intros HH HW HmH HmW.
  destruct (Z_le_gt_dec (shape0 img) maxH) as [H0|H0];
    [destruct (Z_le_gt_dec (shape1 img) maxW) as [H1|H1]|].
  - left. unfold bound_image_to_size. simpl fst. simpl snd.
    apply Z.leb_le in H0, H1. rewrite H0, H1. reflexivity.
  - right.
    destruct (bound_image_to_size_branches cv2_resize img maxH maxW HH HW HmH HmW
                ltac:(right; lia)) as (scale & w & h & E & _ & Hcase).
    exists w, h. split; [exact E|].
    destruct Hcase as [(_ & -> & _ & _ & Hw)|(_ & -> & _ & _ & Hh)]; lia.
  - right.
    destruct (bound_image_to_size_branches cv2_resize img maxH maxW HH HW HmH HmW
                ltac:(left; lia)) as (scale & w & h & E & _ & Hcase).
    exists w, h. split; [exact E|].
    destruct Hcase as [(_ & -> & _ & _ & Hw)|(_ & -> & _ & _ & Hh)]; lia.
Qed.

Lemma bound_image_to_size_ok_within img maxH maxW out :
  resize_contract cv2_resize ->
  0 < shape0 img < 2 ^ 31 -> 0 < shape1 img < 2 ^ 31 ->
  0 < maxH < 2 ^ 31 -> 0 < maxW < 2 ^ 31 ->
  bound_image_to_size cv2_resize img (maxH, maxW) = Ok out ->
  0 <= shape0 out <= maxH /\ 0 <= shape1 out <= maxW.
Proof.
  intros Hc HH HW HmH HmW Hout.
  destruct (Z_le_gt_dec (shape0 img) maxH) as [H0|H0];
    [destruct (Z_le_gt_dec (shape1 img) maxW) as [H1|H1]|].
  - unfold bound_image_to_size in Hout. simpl fst in Hout. simpl snd in Hout.
    pose proof H0 as B0. pose proof H1 as B1.
    apply Z.leb_le in B0, B1. rewrite B0, B1 in Hout.
    injection Hout as <-. lia.
  - destruct (bound_image_to_size_branches cv2_resize img maxH maxW HH HW HmH HmW
                ltac:(right; lia)) as (scale & w & h & E & _ & Hcase).
    rewrite E in Hout. destruct (resize_shape _ _ _ _ _ Hc Hout) as [-> ->].
    destruct Hcase as [(_ & -> & _ & _ & Hw)|(_ & -> & _ & _ & Hh)]; lia.
  - destruct (bound_image_to_size_branches cv2_resize img maxH maxW HH HW HmH HmW
                ltac:(left; lia)) as (scale & w & h & E & _ & Hcase).
    rewrite E in Hout. destruct (resize_shape _ _ _ _ _ Hc Hout) as [-> ->].
    destruct Hcase as [(_ & -> & _ & _ & Hw)|(_ & -> & _ & _ & Hh)]; lia.
Qed.

(** X1: whatever image the scaler returns lies within the bounds, as its
    docstring promises. *)
Theorem bound_image_to_size_within img maxH maxW out :
  resize_contract cv2_resize ->
  0 < shape0 img < 2 ^ 31 -> 0 < shape1 img < 2 ^ 31 ->
  0 < maxH < 2 ^ 31 -> 0 < maxW < 2 ^ 31 ->
  bound_image_to_size cv2_resize img (maxH, maxW) = Ok out ->
  shape0 out <= maxH /\ shape1 out <= maxW.
Proof.
  intros Hc HH HW HmH HmW Hout.
  pose proof (bound_image_to_size_ok_within img maxH maxW out Hc HH HW HmH HmW Hout).
  lia.
Qed.

(** X2: scaling is idempotent: an image the scaler returned is returned
    unchanged when scaled again to the same bounds. *)
Theorem bound_image_to_size_idempotent img maxH maxW out :
  resize_contract cv2_resize ->
  0 < shape0 img < 2 ^ 31 -> 0 < shape1 img < 2 ^ 31 ->
  0 < maxH < 2 ^ 31 -> 0 < maxW < 2 ^ 31 ->
  bound_image_to_size cv2_resize img (maxH, maxW) = Ok out ->
  bound_image_to_size cv2_resize out (maxH, maxW) = Ok out.
Proof.
  intros Hc HH HW HmH HmW Hout.
  destruct (bound_image_to_size_ok_within img maxH maxW out Hc HH HW HmH HmW Hout)
    as [[_ H0] [_ H1]].
  unfold bound_image_to_size. simpl fst. simpl snd.
  apply Z.leb_le in H0, H1. rewrite H0, H1. reflexivity.
Qed.

(** X3: on a non-empty image and positive bounds the divisions and the
    truncation never fail: the only error the scaler can raise is
    OpenCV's. *)
Theorem bound_image_to_size_only_cv2_error img maxH maxW e :
  0 < shape0 img < 2 ^ 31 -> 0 < shape1 img < 2 ^ 31 ->
  0 < maxH < 2 ^ 31 -> 0 < maxW < 2 ^ 31 ->
  bound_image_to_size cv2_resize img (maxH, maxW) = Raise e ->
  e = Cv2Error.
Proof.
  intros HH HW HmH HmW He.
  destruct (bound_image_to_size_outcome img maxH maxW HH HW HmH HmW)
    as [E|(w & h & E & _)]; rewrite E in He; [discriminate|].
  unfold resize in He. destruct (cv2_resize img (w, h)); [discriminate|].
  injection He as <-. reflexivity.
Qed.

(** The dimension the scaler computes is the exact proportional one,
    rounded down, or one below it. *)
Lemma bound_image_to_size_exact_range img maxH maxW :
  0 < shape0 img < 2 ^ 25 -> 0 < shape1 img < 2 ^ 25 ->
  0 < maxH < 2 ^ 25 -> 0 < maxW < 2 ^ 25 ->
  maxH < shape0 img \/ maxW < shape1 img ->
  exists w h,
    bound_image_to_size cv2_resize img (maxH, maxW) = resize cv2_resize img (w, h) /\
    ((h = maxH /\
      shape1 img * maxH / shape0 img - 1 <= w <= shape1 img * maxH / shape0 img)
     \/
     (w = maxW /\
      shape0 img * maxW / shape1 img - 1 <= h <= shape0 img * maxW / shape1 img)).
Proof.
  intros HH HW HmH HmW Hbig.
  assert (Hp : 2 ^ 25 < 2 ^ 31) by reflexivity.
  destruct (bound_image_to_size_branches cv2_resize img maxH maxW
              ltac:(lia) ltac:(lia) ltac:(lia) ltac:(lia) Hbig)
    as (scale & w & h & E & _ & Hcase).
  exists w, h. split; [exact E|].
  destruct Hcase as [(Es & -> & Ew & _ & _)|(Es & -> & Eh & _ & _)].
  - left. split; [reflexivity|].
    destruct (scaled_floor_range (shape1 img) maxH (shape0 img) HW HmH HH)
      as (scale' & t & Es' & Et & Ht).
    rewrite Es in Es'. injection Es' as <-.
    rewrite Ew in Et. injection Et as <-. exact Ht.
  - right. split; [reflexivity|].
    destruct (scaled_floor_range (shape0 img) maxW (shape1 img) HH HmW HW)
      as (scale' & t & Es' & Et & Ht).
    rewrite Es in Es'. injection Es' as <-.
    rewrite Eh in Et. injection Et as <-. exact Ht.
Qed.


(** X5: when the exact proportional size is at least two pixels in both
    directions, the empty request of the 1x1000 case cannot happen: the
    scaler returns a non-empty image within the bounds. *)
Theorem bound_image_to_size_nonempty img maxH maxW :
  resize_contract cv2_resize -> resize_accepts cv2_resize ->
  0 < shape0 img < 2 ^ 25 -> 0 < shape1 img < 2 ^ 25 ->
  0 < maxH < 2 ^ 25 -> 0 < maxW < 2 ^ 25 ->
  maxH < shape0 img \/ maxW < shape1 img ->
  2 * shape0 img <= shape1 img * maxH ->
  2 * shape1 img <= shape0 img * maxW ->
  exists out,
    bound_image_to_size cv2_resize img (maxH, maxW) = Ok out /\
    1 <= shape0 out <= maxH /\ 1 <= shape1 out <= maxW.
Proof.
  intros Hc Ha HH HW HmH HmW Hbig Hw2 Hh2.
  destruct (bound_image_to_size_exact_range img maxH maxW HH HW HmH HmW Hbig)
    as (w & h & E & Hcase).
  assert (Hqw : 2 <= shape1 img * maxH / shape0 img).
  { apply Z.div_le_lower_bound; [lia|]. rewrite Z.mul_comm. exact Hw2. }
  assert (Hqh : 2 <= shape0 img * maxW / shape1 img).
  { apply Z.div_le_lower_bound; [lia|]. rewrite Z.mul_comm. exact Hh2. }
  assert (Hpos : 0 < w /\ 0 < h) by (destruct Hcase as [[-> ?]|[-> ?]]; lia).
  destruct Hpos as [Hwp Hhp].
  destruct (cv2_resize img (w, h)) as [out|] eqn:Er;
    [|exfalso; exact (Ha img w h Hwp Hhp Er)].
  assert (Eout : bound_image_to_size cv2_resize img (maxH, maxW) = Ok out).
  { rewrite E. unfold resize. rewrite Er. reflexivity. }
  exists out. split; [exact Eout|].
  assert (Hp : 2 ^ 25 < 2 ^ 31) by reflexivity.
  pose proof (bound_image_to_size_ok_within img maxH maxW out Hc
                ltac:(lia) ltac:(lia) ltac:(lia) ltac:(lia) Eout) as Hin.
  destruct (Hc _ _ _ _ Er) as [E0 E1]. lia.
Qed.

End ScalerMore.

Lemma nearest_resize_accepts : resize_accepts nearest_resize.
Proof.
  intros img w h Hw Hh. unfold nearest_resize.
  destruct (Z.leb_spec w 0); [lia|]. destruct (Z.leb_spec h 0); [lia|].
  discriminate.
Qed.

Lemma bound_image_to_size_within_witness :
  shape0 scaled_sample <= 200 /\ shape1 scaled_sample <= 477.
Proof.
  apply (bound_image_to_size_within nearest_resize (solid 400 800 7) 200 477).
  - exact nearest_resize_contract.
  - unfold shape0; simpl; lia.
  - unfold shape1; simpl; lia.
  - lia.
  - lia.
  - vm_compute. reflexivity.
Defined.

Lemma bound_image_to_size_idempotent_witness :
  bound_image_to_size nearest_resize scaled_sample (200, 477) = Ok scaled_sample.
Proof.
  apply (bound_image_to_size_idempotent nearest_resize (solid 400 800 7) 200 477).
  - exact nearest_resize_contract.
  - unfold shape0; simpl; lia.
  - unfold shape1; simpl; lia.
  - lia.
  - lia.
  - vm_compute. reflexivity.
Defined.

Lemma bound_image_to_size_only_cv2_error_witness :
  bound_image_to_size nearest_resize (solid 1 1000 7) (200, 477) = Raise Cv2Error /\
  Cv2Error = Cv2Error.
Proof.
  split; [vm_compute; reflexivity|].
  apply (bound_image_to_size_only_cv2_error nearest_resize (solid 1 1000 7) 200 477).
  - unfold shape0; simpl; lia.
  - unfold shape1; simpl; lia.
  - lia.
  - lia.
  - vm_compute. reflexivity.
Defined.


Lemma bound_image_to_size_nonempty_witness :
  exists out,
    bound_image_to_size nearest_resize (solid 400 800 7) (200, 477) = Ok out /\
    1 <= shape0 out <= 200 /\ 1 <= shape1 out <= 477.
Proof.
  apply (bound_image_to_size_nonempty nearest_resize (solid 400 800 7) 200 477).
  - exact nearest_resize_contract.
  - exact nearest_resize_accepts.
  - unfold shape0; simpl; lia.
  - unfold shape1; simpl; lia.
  - lia.
  - lia.
  - left. unfold shape0; simpl; lia.
  - unfold shape0, shape1; simpl; lia.
  - unfold shape0, shape1; simpl; lia.
Defined.

(* ================================================================== *)
(** * Further properties of the column namer *)
(* ================================================================== *)

Lemma all_upper_app s t : all_upper (s ++ t) = all_upper s && all_upper t.
Proof.
  induction s as [|c s IH]; simpl; [reflexivity|].
  rewrite IH. apply andb_assoc.
Qed.

Lemma is_upper_index r : 0 <= r < 26 -> is_upper (index ascii_uppercase r) = true.
Proof.
  intros Hr. pose proof (nat_of_ascii_index r Hr) as H.
  unfold is_upper. apply andb_true_iff. split; apply Nat.leb_le; lia.
Qed.

(** An uppercase letter sits in [ascii_uppercase] at its digit minus one. *)
Lemma index_letter_value c :
  is_upper c = true ->
  1 <= letter_value c <= 26 /\ index ascii_uppercase (letter_value c - 1) = c.
Proof.
  intros Hu. unfold is_upper in Hu. apply andb_true_iff in Hu.
  destruct Hu as [Hl Hh]. apply Nat.leb_le in Hl, Hh.
  unfold letter_value.
  pose proof (ascii_nat_embedding c) as Ec.
  remember (nat_of_ascii c) as k eqn:Ek. rewrite <- Ec. clear Ec Ek c.
  split; [lia|].
  replace k with (65 + (k - 65))%nat by lia.
  assert (Hj : (k - 65 < 26)%nat) by lia.
  remember (k - 65)%nat as j eqn:Ej. clear Ej Hl Hh k.
  do 26 (destruct j as [|j]; [reflexivity|]). lia.
Qed.

Lemma col_number_from_get_col_name s : forall acc,
  0 <= acc -> all_upper s = true ->
  get_col_name (col_number_from acc s) = (get_col_name acc ++ s)%string.
Proof.
  induction s as [|c s IH]; intros acc Hacc Hu;
    cbn [col_number_from all_upper] in *.
  - clear. induction (get_col_name acc) as [|a t IHt]; simpl;
      [reflexivity|rewrite <- IHt; reflexivity].
  - apply andb_true_iff in Hu. destruct Hu as [Hc Hs].
    destruct (index_letter_value c Hc) as [Hv Hi].
    rewrite IH by (exact Hs || lia).
    rewrite (get_col_name_step (26 * acc + letter_value c)) by lia.
    replace ((26 * acc + letter_value c - 1) / 26) with acc
      by (apply Z.div_unique with (letter_value c - 1); lia).
    replace ((26 * acc + letter_value c - 1) mod 26) with (letter_value c - 1)
      by (apply Z.mod_unique with acc; lia).
    rewrite Hi, string_app_assoc. reflexivity.
Qed.

(** X6: the other round trip: a string of uppercase letters is the name of
    the number it decodes to, so [get_col_name] reaches every such string. *)
Theorem get_col_name_col_number s :
  all_upper s = true -> get_col_name (col_number s) = s.
Proof.
  intros Hu. unfold col_number.
  rewrite col_number_from_get_col_name by (exact Hu || lia).
  reflexivity.
Qed.

Lemma get_col_name_col_number_witness :
  get_col_name (col_number "XFD") = "XFD"%string.
Proof. apply (get_col_name_col_number "XFD"). reflexivity. Defined.

Lemma get_col_name_upper n : all_upper (get_col_name n) = true.
Proof.
  induction n as [n IH] using (well_founded_induction (Z.lt_wf 0)).
  destruct (Z_le_gt_dec n 0) as [Hn|Hn].
  - rewrite get_col_name_nonpos by exact Hn. reflexivity.
  - rewrite get_col_name_step by lia. rewrite all_upper_app.
    rewrite IH by quotient_bounds. simpl.
    rewrite is_upper_index by (apply Z.mod_pos_bound; lia). reflexivity.
Qed.

(** X7: a column name consists of uppercase letters only, and it is empty
    exactly for the numbers that are not positive. *)
Theorem get_col_name_letters n :
  all_upper (get_col_name n) = true /\
  (get_col_name n = ""%string <-> n <= 0).
Proof.
  split; [apply get_col_name_upper|]. split.
  - intros E. destruct (Z_le_gt_dec n 0) as [Hn|Hn]; [exact Hn|exfalso].
    apply (f_equal String.length) in E.
    rewrite get_col_name_length in E by lia. discriminate E.
  - apply get_col_name_nonpos.
Qed.

Lemma last_col_nonneg k : 0 <= last_col k.
Proof.
  induction k as [|k IH]; [simpl; lia|].
  change (last_col (S k)) with (26 * (last_col k + 1)). lia.
Qed.

(** X8: how long a name is: the name of [n] has at most [k] letters
    exactly when [n] is at most 26 + 26^2 + ... + 26^k, so one letter serves
    up to column 26, two up to 702 and three up to 18278. *)
Theorem get_col_name_length_le k : forall n,
  ((String.length (get_col_name n) <= k)%nat <-> n <= last_col k) /\
  last_col 1 = 26 /\ last_col 2 = 702 /\ last_col 3 = 18278.
Proof.
  intros n. split; [|repeat split; reflexivity].
  revert n. induction k as [|k IH]; intros n.
  - simpl last_col. destruct (Z_le_gt_dec n 0) as [Hn|Hn].
    + rewrite get_col_name_nonpos by exact Hn. simpl. split; intros; lia.
    + rewrite get_col_name_length by lia. split; intros; lia.
  - pose proof (last_col_nonneg k) as HL.
    change (last_col (S k)) with (26 * (last_col k + 1)).
    destruct (Z_le_gt_dec n 0) as [Hn|Hn].
    + rewrite get_col_name_nonpos by exact Hn. cbn [String.length].
      split; intros; lia.
    + rewrite get_col_name_length by lia.
      pose proof (Z.div_mod (n - 1) 26 ltac:(lia)) as Hdm.
      pose proof (Z.mod_pos_bound (n - 1) 26 ltac:(lia)) as Hmb.
      specialize (IH ((n - 1) / 26)).
      split; intros H.
      * apply le_S_n in H. apply IH in H. lia.
      * apply le_n_S. apply IH. lia.
Qed.

Lemma firstn_seq_le k : forall s M,
  (k <= M)%nat -> firstn k (seq s M) = seq s k.
Proof.
  induction k as [|k IH]; intros s M Hk; [reflexivity|].
  destruct M as [|M]; [lia|]. simpl. rewrite IH by lia. reflexivity.
Qed.

(** X9: a shorter run of the generator is a prefix of a longer one, and no
    name is yielded twice. *)
Theorem iter_col_names_prefix n m :
  n <= m ->
  NoDup (iter_col_names m) /\
  firstn (Z.to_nat n) (iter_col_names m) = iter_col_names n.
Proof.
  intros Hnm. unfold iter_col_names. split.
  - unfold range. rewrite map_map.
    apply Injective_map_NoDup_in; [|apply seq_NoDup].
    intros a b Ha Hb E. apply in_seq in Ha, Hb.
    assert (E' : 1 + Z.of_nat a = 1 + Z.of_nat b).
    { rewrite <- (col_number_get_col_name (1 + Z.of_nat a)),
              <- (col_number_get_col_name (1 + Z.of_nat b)) by lia.
      rewrite E. reflexivity. }
    lia.
  - unfold range. rewrite !firstn_map.
    replace (n + 1 - 1) with n by lia. replace (m + 1 - 1) with m by lia.
    rewrite firstn_seq_le by lia. reflexivity.
Qed.

Lemma iter_col_names_prefix_witness :
  NoDup (iter_col_names 28) /\
  firstn (Z.to_nat 3) (iter_col_names 28) = iter_col_names 3.
Proof. apply (iter_col_names_prefix 3 28). lia. Defined.

(* ================================================================== *)
(** * The scaler only shrinks *)
(* ================================================================== *)

(** The quotient of [a >= b] rounds to at least one. *)
Lemma quotient_ge_one a b m e :
  0 < b <= a ->
  (forall x, (x * inject_Z b == inject_Z a)%Q -> rounds_to x m e) ->
  (1 <= Fval m e)%Q.
Proof.
  intros Hab Hr.
  pose proof (inject_Z_pos b ltac:(lia)) as Hbq.
  assert (Hx : (inject_Z a / inject_Z b * inject_Z b == inject_Z a)%Q) by (field; lra).
  specialize (Hr _ Hx).
  assert (Hc : canon 4503599627370496) by (unfold canon; simpl; lia).
  assert (E1 : (Fval 4503599627370496 (-52) == 1)%Q) by reflexivity.
  rewrite <- E1. apply (rounds_to_ge_lower _ m e _ _ Hr Hc).
  rewrite E1. apply (Qscale_le _ _ (inject_Z b) Hbq). rewrite Hx.
  assert (inject_Z b <= inject_Z a)%Q by (rewrite <- Zle_Qle; lia). lra.
Qed.

(** A scale below one, as the quotient [a / b], leaves [n] at most [n] and
    comes from [a < b]. *)
Lemma scale_below_one n a b scale t :
  0 < n < 2 ^ 31 -> 0 < a < 2 ^ 31 -> 0 < b < 2 ^ 31 ->
  truediv a b = Ok scale -> flt scale one = true ->
  int_of_float (mul_int_float n scale) = Ok t ->
  a < b /\ t <= n.
Proof.
  intros Hn Ha Hb Es Hlt Et.
  assert (Hp : 2 ^ 31 < 2 ^ 53) by reflexivity.
  destruct (truediv_spec a b ltac:(lia) ltac:(lia)) as (m & e & Es' & Hc & He & Hr).
  rewrite Es in Es'. injection Es' as ->.
  assert (Hc1 : canon 4503599627370496) by (unfold canon; simpl; lia).
  change one with (S754_finite false 4503599627370496 (-52)) in Hlt.
  apply (SFltb_true _ _ _ _ Hc Hc1) in Hlt.
  assert (E1 : (Fval 4503599627370496 (-52) == 1)%Q) by reflexivity.
  rewrite E1 in Hlt.
  split.
  - destruct (Z_lt_le_dec a b) as [H|H]; [exact H|exfalso].
    pose proof (quotient_ge_one a b m e ltac:(lia) Hr). lra.
  - pose proof (inject_Z_pos n ltac:(lia)) as Hnq.
    assert (Hprod : (inject_Z n * Fval m e <= inject_Z n * (1 + pow2 (-53)))%Q).
    { apply slack_of_le; [lra|].
      pose proof (Fval_ge_pow m e Hc) as Hge. pose proof (pow2_pos e).
      change (inject_Z (2 ^ 52)) with (4503599627370496 # 1)%Q in Hge.
      nra. }
    destruct (scaled_le n n m e ltac:(lia) Hn Hc He Hprod) as (t' & Et' & _ & Ht').
    rewrite Et in Et'. injection Et' as <-. lia.
Qed.

Section ScalerShrinks.

Variable cv2_resize : ndarray -> Z * Z -> option ndarray.

(** X10: the scaler never enlarges: the size it asks OpenCV for is at most
    the image's own in both directions and strictly smaller in the limiting
    one. *)
Theorem bound_image_to_size_shrinks img maxH maxW :
  0 < shape0 img < 2 ^ 31 -> 0 < shape1 img < 2 ^ 31 ->
  0 < maxH < 2 ^ 31 -> 0 < maxW < 2 ^ 31 ->
  maxH < shape0 img \/ maxW < shape1 img ->
  exists w h,
    bound_image_to_size cv2_resize img (maxH, maxW) = resize cv2_resize img (w, h) /\
    w <= shape1 img /\ h <= shape0 img /\
    (w < shape1 img \/ h < shape0 img).
Proof.
  intros HH HW HmH HmW Hbig.
  destruct (bound_image_to_size_branches cv2_resize img maxH maxW HH HW HmH HmW Hbig)
    as (scale & w & h & E & Hs & Hcase).
  exists w, h. split; [exact E|].
  destruct Hcase as [(Es & -> & Ew & _ & _)|(Es & -> & Eh & _ & _)].
  - destruct (scale_below_one (shape1 img) maxH (shape0 img) scale w HW HmH HH Es Hs Ew).
    lia.
  - destruct (scale_below_one (shape0 img) maxW (shape1 img) scale h HH HmW HW Es Hs Eh).
    lia.
Qed.

End ScalerShrinks.

Lemma bound_image_to_size_shrinks_witness :
  exists w h,
    bound_image_to_size nearest_resize (solid 400 800 7) (200, 477)
      = resize nearest_resize (solid 400 800 7) (w, h) /\
    w <= shape1 (solid 400 800 7) /\ h <= shape0 (solid 400 800 7) /\
    (w < shape1 (solid 400 800 7) \/ h < shape0 (solid 400 800 7)).
Proof.
  apply (bound_image_to_size_shrinks nearest_resize (solid 400 800 7) 200 477).
  - unfold shape0; simpl; lia.
  - unfold shape1; simpl; lia.
  - lia.
  - lia.
  - left. unfold shape0; simpl; lia.
Defined.

(* ================================================================== *)
(** * Further properties of the grid writer *)
(* ================================================================== *)

Lemma in_range lo hi x : In x (range lo hi) <-> lo <= x < hi.
Proof.
  unfold range. rewrite in_map_iff. split.
  - intros (i & <- & Hi). apply in_seq in Hi. lia.
  - intros Hx. exists (Z.to_nat (x - lo)). split; [lia|]. apply in_seq. lia.
Qed.

Lemma existsb_range lo hi j :
  existsb (Z.eqb j) (range lo hi) = (lo <=? j) && (j <? hi).
Proof.
  destruct (existsb (Z.eqb j) (range lo hi)) eqn:E.
  - apply existsb_exists in E. destruct E as (x & Hx & Hjx).
    apply Z.eqb_eq in Hjx. subst x. apply in_range in Hx.
    symmetry. apply andb_true_iff. split; [apply Z.leb_le|apply Z.ltb_lt]; lia.
  - symmetry. apply andb_false_iff.
    destruct (Z.leb_spec lo j) as [H1|H1]; [|left; reflexivity].
    destruct (Z.ltb_spec j hi) as [H2|H2]; [|right; reflexivity].
    exfalso. assert (Hin : In j (range lo hi)) by (apply in_range; lia).
    assert (Ht : existsb (Z.eqb j) (range lo hi) = true).
    { apply existsb_exists. exists j. split; [exact Hin|apply Z.eqb_refl]. }
    rewrite Ht in E. discriminate E.
Qed.

(** A loop whose body leaves a field of the worksheet alone leaves it alone. *)
Lemma for_each_frame {A B} (f : Worksheet -> B) (xs : list A)
    (body : A -> Worksheet -> Worksheet) :
  (forall x ws, f (body x ws) = f ws) ->
  forall ws, f (for_each xs body ws) = f ws.
Proof.
  intros Hb. unfold for_each.
  induction xs as [|x xs IH]; intros ws; simpl; [reflexivity|].
  rewrite IH. apply Hb.
Qed.

Lemma for_each_set_row_height h (xs : list Z) : forall ws j,
  row_dimensions (for_each xs (fun i => set_row_height i h) ws) j
  = if existsb (Z.eqb j) xs then Some h else row_dimensions ws j.
Proof.
  unfold for_each.
  induction xs as [|x xs IH]; intros ws j; simpl; [reflexivity|].
  rewrite IH. simpl.
  destruct (existsb (Z.eqb j) xs); [rewrite orb_true_r; reflexivity|].
  rewrite orb_false_r. reflexivity.
Qed.

Lemma for_each_set_column_width w (xs : list string) : forall ws c,
  column_dimensions (for_each xs (fun col => set_column_width col w) ws) c
  = if existsb (String.eqb c) xs then Some w else column_dimensions ws c.
Proof.
  unfold for_each.
  induction xs as [|x xs IH]; intros ws c; simpl; [reflexivity|].
  rewrite IH. simpl.
  destruct (existsb (String.eqb c) xs); [rewrite orb_true_r; reflexivity|].
  rewrite orb_false_r. reflexivity.
Qed.

(** X11: the writer sets the height of exactly the worksheet rows
    1 .. height * channels to [ROW_HEIGHT], the rows it then fills, and
    leaves every other row's height as it was. *)
Theorem write_img_to_ws_row_heights img ws j :
  row_dimensions (write_img_to_ws img ws) j
  = if (1 <=? j) && (j <=? shape0 img * shape2 img)
    then Some ROW_HEIGHT
    else row_dimensions ws j.
Proof.
  unfold write_img_to_ws.
  rewrite (for_each_frame (fun ws => row_dimensions ws j)).
  2:{ intros r w. apply (for_each_frame (fun ws => row_dimensions ws j)).
      reflexivity. }
  rewrite (for_each_frame (fun ws => row_dimensions ws j)) by reflexivity.
  rewrite for_each_set_row_height, existsb_range.
  replace (j <? shape0 img * shape2 img + 1) with (j <=? shape0 img * shape2 img)
    by (destruct (Z.leb_spec j (shape0 img * shape2 img)),
                 (Z.ltb_spec j (shape0 img * shape2 img + 1)); lia || reflexivity).
  reflexivity.
Qed.

Lemma existsb_iter_col_names W j :
  existsb (String.eqb (get_col_name j)) (iter_col_names W)
  = (1 <=? j) && (j <=? W).
Proof.
  destruct (existsb (String.eqb (get_col_name j)) (iter_col_names W)) eqn:E.
  - apply existsb_exists in E. destruct E as (x & Hx & Hjx).
    apply String.eqb_eq in Hjx. subst x. unfold iter_col_names in Hx.
    apply in_map_iff in Hx. destruct Hx as (i & Ei & Hi). apply in_range in Hi.
    assert (Hj : 0 < j).
    { destruct (Z_lt_le_dec 0 j) as [H|H]; [exact H|exfalso].
      rewrite (get_col_name_nonpos j H) in Ei.
      apply (f_equal String.length) in Ei.
      rewrite get_col_name_length in Ei by lia. discriminate Ei. }
    assert (Eij : i = j).
    { rewrite <- (col_number_get_col_name i), <- (col_number_get_col_name j) by lia.
      rewrite Ei. reflexivity. }
    symmetry. apply andb_true_iff. split; apply Z.leb_le; lia.
  - symmetry. apply andb_false_iff.
    destruct (Z.leb_spec 1 j) as [H1|H1]; [|left; reflexivity].
    destruct (Z.leb_spec j W) as [H2|H2]; [|right; reflexivity].
    exfalso.
    assert (Ht : existsb (String.eqb (get_col_name j)) (iter_col_names W) = true).
    { apply existsb_exists. exists (get_col_name j). split; [|apply String.eqb_refl].
      unfold iter_col_names. apply in_map. apply in_range. lia. }
    rewrite Ht in E. discriminate E.
Qed.

(** X12: the writer sets the width of exactly the columns named
    [get_col_name 1 .. get_col_name width] to [COL_WIDTH]; any other column
    keeps the width it had. *)
Theorem write_img_to_ws_column_widths img ws :
  (forall c,
     column_dimensions (write_img_to_ws img ws) c
     = if existsb (String.eqb c) (iter_col_names (shape1 img))
       then Some COL_WIDTH
       else column_dimensions ws c) /\
  (forall j,
     column_dimensions (write_img_to_ws img ws) (get_col_name j)
     = if (1 <=? j) && (j <=? shape1 img)
       then Some COL_WIDTH
       else column_dimensions ws (get_col_name j)).
Proof.
  assert (H : forall c,
     column_dimensions (write_img_to_ws img ws) c
     = if existsb (String.eqb c) (iter_col_names (shape1 img))
       then Some COL_WIDTH
       else column_dimensions ws c).
  { intros c. unfold write_img_to_ws.
    rewrite (for_each_frame (fun ws => column_dimensions ws c)).
    2:{ intros r w. apply (for_each_frame (fun ws => column_dimensions ws c)).
        reflexivity. }
    rewrite for_each_set_column_width.
    rewrite (for_each_frame (fun ws => column_dimensions ws c)) by reflexivity.
    reflexivity. }
  split; [exact H|].
  intros j. rewrite H, existsb_iter_col_names. reflexivity.
Qed.

Lemma nth_error_seq0 c i : (i < c)%nat -> nth_error (seq 0 c) i = Some i.
Proof.
  intros Hi. rewrite nth_error_nth' with (d := 0%nat) by (rewrite length_seq; exact Hi).
  rewrite seq_nth by exact Hi. reflexivity.
Qed.

Lemma length_blocks {A} (g : nat -> nat -> A) c l :
  List.length (flat_map (fun r => map (g r) (seq 0 c)) l) = (List.length l * c)%nat.
Proof.
  induction l as [|x l IH]; [reflexivity|].
  cbn [flat_map]. rewrite length_app, length_map, length_seq, IH. simpl. lia.
Qed.

(** Position [i] in a list of [k] blocks of [c] entries each is entry
    [i mod c] of block [i / c]. *)
Lemma nth_error_blocks {A} (g : nat -> nat -> A) c k :
  (0 < c)%nat ->
  forall s i,
    nth_error (flat_map (fun r => map (g r) (seq 0 c)) (seq s k)) i
    = if (i <? k * c)%nat then Some (g (s + i / c)%nat (i mod c)%nat) else None.
Proof.
  intros Hc. induction k as [|k IH]; intros s i.
  - simpl. destruct i; reflexivity.
  - change (seq s (S k)) with (s :: seq (S s) k). cbn [flat_map].
    rewrite nth_error_app, length_map, length_seq.
    destruct (Nat.ltb_spec i c) as [Hi|Hi].
    + rewrite nth_error_map, nth_error_seq0 by exact Hi. cbn [option_map].
      destruct (Nat.ltb_spec i (S k * c)) as [_|H]; [|simpl in H; lia].
      rewrite Nat.div_small, Nat.mod_small, Nat.add_0_r by exact Hi. reflexivity.
    + rewrite IH.
      pose proof (Nat.div_add (i - c) 1 c ltac:(lia)) as Hd.
      pose proof (Nat.Div0.mod_add (i - c) 1 c) as Hm.
      replace (i - c + 1 * c)%nat with i in Hd, Hm by lia.
      rewrite Hd, Hm.
      destruct (Nat.ltb_spec (i - c) (k * c)), (Nat.ltb_spec i (S k * c));
        simpl in *; try lia; [|reflexivity].
      f_equal. f_equal. lia.
Qed.

(** The rows the writer appends, for any number of channels. *)
Lemma write_img_to_ws_new_rows img ws :
  0 <= shape0 img -> 0 <= shape2 img ->
  exists new,
    rows (write_img_to_ws img ws) = (rows ws ++ new)%list /\
    List.length new = Z.to_nat (shape0 img * shape2 img) /\
    forall i : nat,
      nth_error new i
      = if Z.of_nat i <? shape0 img * shape2 img
        then Some (map cell (row_channel img (Z.of_nat i / shape2 img)
                                             (Z.of_nat i mod shape2 img)))
        else None.
Proof.
  intros HH HC.
  eexists. split; [apply rows_of_write_img_to_ws|].
  set (g := fun r ch : nat => map cell (row_channel img (Z.of_nat r) (Z.of_nat ch))).
  assert (E : flat_map (fun r => map (fun channel => map cell (row_channel img r channel))
                                     (range 0 (shape2 img))) (range 0 (shape0 img))
              = flat_map (fun r => map (g r) (seq 0 (Z.to_nat (shape2 img))))
                         (seq 0 (Z.to_nat (shape0 img)))).
  { unfold range. rewrite !Z.sub_0_r. rewrite flat_map_concat_map, map_map.
    rewrite <- flat_map_concat_map. apply flat_map_ext. intros a.
    rewrite map_map. reflexivity. }
  rewrite E. split.
  - rewrite length_blocks, length_seq. lia.
  - intros i.
    destruct (Z.eq_dec (shape2 img) 0) as [C0|C0].
    + rewrite C0. simpl seq. rewrite Z.mul_0_r.
      destruct (Z.ltb_spec (Z.of_nat i) 0); [lia|].
      assert (En : forall l : list nat,
                 flat_map (fun r => map (g r) []) l = []).
      { induction l as [|x l IHl]; [reflexivity|exact IHl]. }
      rewrite En. destruct i; reflexivity.
    + rewrite nth_error_blocks by lia.
      destruct (Nat.ltb_spec i (Z.to_nat (shape0 img) * Z.to_nat (shape2 img))),
               (Z.ltb_spec (Z.of_nat i) (shape0 img * shape2 img)); try nia;
        [|reflexivity].
      unfold g. rewrite Nat.add_0_l.
      rewrite Nat2Z.inj_div, Nat2Z.inj_mod, Z2Nat.id by lia. reflexivity.
Qed.

(** X13: for an image with any number of channels the writer appends
    height * channels rows, and the row at 0-indexed position [i] holds
    channel [i mod channels] of image row [i / channels]; an image without
    rows appends nothing. *)
Theorem write_img_to_ws_any_channels img ws :
  0 <= shape0 img -> 0 <= shape2 img ->
  exists new,
    rows (write_img_to_ws img ws) = (rows ws ++ new)%list /\
    List.length new = Z.to_nat (shape0 img * shape2 img) /\
    forall i : nat,
      nth_error new i
      = if Z.of_nat i <? shape0 img * shape2 img
        then Some (map cell (row_channel img (Z.of_nat i / shape2 img)
                                             (Z.of_nat i mod shape2 img)))
        else None.
Proof. exact (write_img_to_ws_new_rows img ws). Qed.

Lemma write_img_to_ws_any_channels_witness :
  exists new,
    rows (write_img_to_ws sample_image (create_sheet "Image"))
    = (rows (create_sheet "Image") ++ new)%list /\
    List.length new = Z.to_nat (shape0 sample_image * shape2 sample_image) /\
    forall i : nat,
      nth_error new i
      = if Z.of_nat i <? shape0 sample_image * shape2 sample_image
        then Some (map cell (row_channel sample_image
                               (Z.of_nat i / shape2 sample_image)
                               (Z.of_nat i mod shape2 sample_image)))
        else None.
Proof.
  apply (write_img_to_ws_any_channels sample_image (create_sheet "Image")).
  - unfold shape0; simpl; lia.
  - unfold shape2; simpl; lia.
Defined.


(** The writer leaves the title and the formatting rules of the sheet alone. *)
Lemma write_img_to_ws_keeps img ws :
  title (write_img_to_ws img ws) = title ws /\
  conditional_formatting (write_img_to_ws img ws) = conditional_formatting ws.
Proof.
  split.
  - unfold write_img_to_ws.
    rewrite (for_each_frame title).
    2:{ intros r w. apply (for_each_frame title). reflexivity. }
    rewrite !(for_each_frame title) by reflexivity. reflexivity.
  - unfold write_img_to_ws.
    rewrite (for_each_frame conditional_formatting).
    2:{ intros r w. apply (for_each_frame conditional_formatting). reflexivity. }
    rewrite !(for_each_frame conditional_formatting) by reflexivity. reflexivity.
Qed.


(* ================================================================== *)
(** * Further properties of the colour rules *)
(* ================================================================== *)

(** The rules [apply_colors] adds and the rows it keeps. *)
Lemma apply_colors_added ws n_rows n_cols :
  conditional_formatting (apply_colors ws n_rows n_cols)
  = (conditional_formatting ws
     ++ map (fun r => (row_range (get_col_name n_cols) r, color_rule r))
            (range 1 (n_rows + 1)))%list /\
  rows (apply_colors ws n_rows n_cols) = rows ws.
Proof. unfold apply_colors. apply for_each_add_rule. Qed.

Lemma added_rule_nth n_rows n_cols (i : nat) :
  nth_error (map (fun r => (row_range (get_col_name n_cols) r, color_rule r))
                 (range 1 (n_rows + 1))) i
  = if Z.of_nat i <? n_rows
    then Some (row_range (get_col_name n_cols) (Z.of_nat i + 1),
               color_rule (Z.of_nat i + 1))
    else None.
Proof.
  rewrite nth_error_map, range_nth_error.
  replace (n_rows + 1 - 1) with n_rows by lia.
  destruct (Z.of_nat i <? n_rows); unfold option_map; [|reflexivity].
  rewrite (Z.add_comm 1). reflexivity.
Qed.

Lemma end_color_color_rule r :
  end_color (color_rule r)
  = match (r - 1) mod 3 with
    | 0 => "0000FF"
    | 1 => "00FF00"
    | _ => "FF0000"
    end%string.
Proof.
  pose proof (Z.mod_pos_bound (r - 1) 3 ltac:(lia)) as Hb.
  unfold color_rule, list_index. cbn [end_color].
  assert (Hc : (r - 1) mod 3 = 0 \/ (r - 1) mod 3 = 1 \/ (r - 1) mod 3 = 2) by lia.
  destruct Hc as [-> | [-> | ->]]; reflexivity.
Qed.

(** X15: among the rules [apply_colors] adds, two rows share their end
    colour exactly when their row numbers agree modulo 3, and every rule
    starts from black: the three rows of a pixel row get three different
    colours, the same three for every pixel row. *)
Theorem apply_colors_colours ws n_rows n_cols i k rng_i rule_i rng_k rule_k :
  let added := skipn (List.length (conditional_formatting ws))
                     (conditional_formatting (apply_colors ws n_rows n_cols)) in
  nth_error added i = Some (rng_i, rule_i) ->
  nth_error added k = Some (rng_k, rule_k) ->
  (end_color rule_i = end_color rule_k <-> Z.of_nat i mod 3 = Z.of_nat k mod 3) /\
  start_color rule_i = "000000"%string /\ start_color rule_k = "000000"%string.
Proof.
  intros added Hi Hk. unfold added in Hi, Hk.
  destruct (apply_colors_added ws n_rows n_cols) as [E _].
  rewrite E, skipn_app, Nat.sub_diag, skipn_all in Hi, Hk.
  cbn [skipn app] in Hi, Hk.
  rewrite added_rule_nth in Hi, Hk.
  destruct (Z.of_nat i <? n_rows); [|discriminate]. injection Hi as _ <-.
  destruct (Z.of_nat k <? n_rows); [|discriminate]. injection Hk as _ <-.
  split; [|split; reflexivity].
  rewrite !end_color_color_rule.
  replace (Z.of_nat i + 1 - 1) with (Z.of_nat i) by lia.
  replace (Z.of_nat k + 1 - 1) with (Z.of_nat k) by lia.
  pose proof (Z.mod_pos_bound (Z.of_nat i) 3 ltac:(lia)) as Bi.
  pose proof (Z.mod_pos_bound (Z.of_nat k) 3 ltac:(lia)) as Bk.
  assert (Ci : Z.of_nat i mod 3 = 0 \/ Z.of_nat i mod 3 = 1 \/ Z.of_nat i mod 3 = 2)
    by lia.
  assert (Ck : Z.of_nat k mod 3 = 0 \/ Z.of_nat k mod 3 = 1 \/ Z.of_nat k mod 3 = 2)
    by lia.
  destruct Ci as [-> | [-> | ->]], Ck as [-> | [-> | ->]];
    split; intros H; try reflexivity; try discriminate H; try lia.
Qed.

Lemma apply_colors_colours_witness :
  (end_color (color_rule 2) = end_color (color_rule 5)
   <-> Z.of_nat 1 mod 3 = Z.of_nat 4 mod 3) /\
  start_color (color_rule 2) = "000000"%string /\
  start_color (color_rule 5) = "000000"%string.
Proof.
  apply (apply_colors_colours (create_sheet "Image") 6 2 1%nat 4%nat
           "A2:B2"%string (color_rule 2) "A5:B5"%string (color_rule 5));
    reflexivity.
Defined.

(** X16: with no rows to format, [apply_colors] leaves the worksheet
    exactly as it is. *)
Theorem apply_colors_no_rows ws n_rows n_cols :
  n_rows <= 0 -> apply_colors ws n_rows n_cols = ws.
Proof.
  intros Hn. unfold apply_colors, range.
  replace (Z.to_nat (n_rows + 1 - 1)) with 0%nat by lia. reflexivity.
Qed.

Lemma apply_colors_no_rows_witness :
  apply_colors (create_sheet "Image") 0 5 = create_sheet "Image".
Proof. apply (apply_colors_no_rows (create_sheet "Image") 0 5). lia. Defined.

(* ================================================================== *)
(** * Further properties of the program *)
(* ================================================================== *)

Section MainMore.

Variable cv2_imread : string -> option ndarray.
Variable cv2_resize : ndarray -> Z * Z -> option ndarray.
Variable path_stem : string -> string.
Variable FileSystem : Type.
Variable wb_save : Workbook -> string -> FileSystem -> option FileSystem.

(** X17: what [main] saves. When the image decodes and is scaled to a
    three-channel image of height H and width W, [main] saves, under the
    given output path or else under the image's stem with .xlsx, a workbook
    of one sheet titled Image with 3 * H rows and as many rules; row [i]
    (0-indexed) holds channel [i mod 3] of pixel row [i / 3] and its rule,
    over the range from column A to the last column written, ends in the
    colour [rgb[i mod 3]]. *)
Theorem main_saves_sheet image output fs img img' :
  cv2_imread image = Some img ->
  bound_image_to_size cv2_resize img MAX_SIZE = Ok img' ->
  0 <= shape0 img' -> shape2 img' = 3 ->
  exists ws,
    main cv2_imread cv2_resize path_stem FileSystem wb_save image output fs
    = match wb_save {| sheets := [ws] |}
              (match output with
               | None => (path_stem image ++ ".xlsx")%string
               | Some o => o
               end) fs with
      | Some fs' => (Ok tt, fs')
      | None => (Raise OSError, fs)
      end /\
    title ws = "Image"%string /\
    List.length (rows ws) = Z.to_nat (3 * shape0 img') /\
    List.length (conditional_formatting ws) = Z.to_nat (3 * shape0 img') /\
    forall i : nat,
      Z.of_nat i < 3 * shape0 img' ->
      exists row rule,
        nth_error (rows ws) i = Some row /\
        nth_error (conditional_formatting ws) i
        = Some (row_range (get_col_name (shape1 img')) (Z.of_nat i + 1), rule) /\
        map value row = row_channel img' (Z.of_nat i / 3) (Z.of_nat i mod 3) /\
        end_color rule = nth (Z.to_nat (Z.of_nat i mod 3)) rgb ""%string /\
        start_color rule = "000000"%string.
Proof.
  intros Ei Eb HH HC.
  set (ws0 := write_img_to_ws img' (create_sheet "Image")).
  set (ws := apply_colors ws0 (shape0 img' * shape2 img') (shape1 img')).
  exists ws. split; [unfold main; rewrite Ei, Eb; reflexivity|].
  destruct (apply_colors_added ws0 (shape0 img' * shape2 img') (shape1 img'))
    as [Ecf Erows].
  fold ws in Ecf, Erows.
  destruct (write_img_to_ws_keeps img' (create_sheet "Image")) as [Et0 Ecf0].
  fold ws0 in Et0, Ecf0. simpl in Et0, Ecf0.
  destruct (write_img_to_ws_new_rows img' (create_sheet "Image") HH ltac:(lia))
    as (new & Enew & Hlen & Hnth).
  fold ws0 in Enew. simpl in Enew.
  rewrite Ecf0 in Ecf. cbn [app] in Ecf.
  rewrite HC in *.
  replace (shape0 img' * 3) with (3 * shape0 img') in * by lia.
  split.
  { unfold ws, apply_colors. rewrite (for_each_frame title) by reflexivity.
    exact Et0. }
  split; [rewrite Erows, Enew; exact Hlen|].
  split; [rewrite Ecf, length_map, range_length; f_equal; lia|].
  intros i Hi.
  exists (map cell (row_channel img' (Z.of_nat i / 3) (Z.of_nat i mod 3))),
         (color_rule (Z.of_nat i + 1)).
  split.
  { rewrite Erows, Enew, Hnth. apply Z.ltb_lt in Hi. rewrite Hi. reflexivity. }
  split.
  { rewrite Ecf, added_rule_nth. apply Z.ltb_lt in Hi. rewrite Hi. reflexivity. }
  split; [apply map_value_cell|].
  split; [|reflexivity].
  unfold color_rule, list_index. cbn [end_color].
  replace (Z.of_nat i + 1 - 1) with (Z.of_nat i) by lia. reflexivity.
Qed.


(** X19: on a decoded image that is not empty, [main] can fail only where
    its collaborators do: with OpenCV's error from the resize or with the
    error of the save; its own arithmetic never raises. *)
Theorem main_errors image output fs img e :
  cv2_imread image = Some img ->
  0 < shape0 img < 2 ^ 31 -> 0 < shape1 img < 2 ^ 31 ->
  fst (main cv2_imread cv2_resize path_stem FileSystem wb_save image output fs)
    = Raise e ->
  e = Cv2Error \/ e = OSError.
Proof.
  intros Ei HH HW. unfold main. rewrite Ei.
  destruct (bound_image_to_size cv2_resize img MAX_SIZE) as [img'|e'] eqn:Eb.
  - match goal with
    | |- context [wb_save ?wb ?p fs] => destruct (wb_save wb p fs)
    end; cbn [fst]; [discriminate|].
    intros [= <-]. right. reflexivity.
  - cbn [fst]. intros [= <-]. left.
    unfold MAX_SIZE in Eb.
    destruct (bound_image_to_size_outcome cv2_resize img 200 477 HH HW
                ltac:(lia) ltac:(lia)) as [E|(w & h & E & _)];
      rewrite E in Eb; [discriminate|].
    unfold resize in Eb. destruct (cv2_resize img (w, h)); [discriminate|].
    injection Eb as <-. reflexivity.
Qed.

End MainMore.

(** A run on the 2 x 2 sample image, which needs no scaling, with a save
    that records the workbook under its path. *)
Lemma main_saves_sheet_witness :
  exists ws,
    main (fun _ => Some sample_image) nearest_resize (fun p => p)
         (list (string * Workbook))
         (fun wb path fs => Some ((path, wb) :: fs))
         "pic"%string None []
    = match Some [(("pic" ++ ".xlsx")%string, {| sheets := [ws] |})] with
      | Some fs' => (Ok tt, fs')
      | None => (Raise OSError, [])
      end /\
    title ws = "Image"%string /\
    List.length (rows ws) = Z.to_nat (3 * shape0 sample_image) /\
    List.length (conditional_formatting ws) = Z.to_nat (3 * shape0 sample_image) /\
    forall i : nat,
      Z.of_nat i < 3 * shape0 sample_image ->
      exists row rule,
        nth_error (rows ws) i = Some row /\
        nth_error (conditional_formatting ws) i
        = Some (row_range (get_col_name (shape1 sample_image)) (Z.of_nat i + 1),
                rule) /\
        map value row
        = row_channel sample_image (Z.of_nat i / 3) (Z.of_nat i mod 3) /\
        end_color rule = nth (Z.to_nat (Z.of_nat i mod 3)) rgb ""%string /\
        start_color rule = "000000"%string.
Proof.
  apply (main_saves_sheet (fun _ => Some sample_image) nearest_resize (fun p => p)
           (list (string * Workbook))
           (fun wb path fs => Some ((path, wb) :: fs))
           "pic"%string None [] sample_image sample_image).
  - reflexivity.
  - vm_compute. reflexivity.
  - vm_compute. discriminate.
  - reflexivity.
Defined.

(** A run on the 1 x 1000 strip, whose scaled width is 0: the resize is
    refused and nothing is saved. *)
Lemma main_errors_witness :
  fst (main (fun _ => Some (solid 1 1000 7)) nearest_resize (fun p => p)
            (list (string * Workbook))
            (fun wb path fs => Some ((path, wb) :: fs))
            "strip.png"%string None [])
  = Raise Cv2Error /\
  ((Cv2Error : exn) = Cv2Error \/ (Cv2Error : exn) = OSError).
Proof.
  assert (E : fst (main (fun _ => Some (solid 1 1000 7)) nearest_resize (fun p => p)
                        (list (string * Workbook))
                        (fun wb path fs => Some ((path, wb) :: fs))
                        "strip.png"%string None [])
              = Raise Cv2Error) by (vm_compute; reflexivity).
  split; [exact E|].
  apply (main_errors (fun _ => Some (solid 1 1000 7)) nearest_resize (fun p => p)
           (list (string * Workbook))
           (fun wb path fs => Some ((path, wb) :: fs))
           "strip.png"%string None [] (solid 1 1000 7) Cv2Error).
  - reflexivity.
  - unfold shape0; simpl; lia.
  - unfold shape1; simpl; lia.
  - exact E.
Defined.
